(** * MutationTestExecutor: pairing mutants with sandboxes

    A shallow embedding of [packages/stryker/src/process/MutationTestExecutor.ts].

    The classifier functions ([earlyResult], [runInSandbox],
    [collectMutantResult], [createTuple]) are pure and are embedded as Rocq
    functions.  The rxjs pipeline built by [runInsideSandboxes] is embedded as
    an event-driven machine: JavaScript runs one callback at a time, so a run
    is a sequence of callbacks (a source emits, a promise settles), and each
    callback drives the operator chain synchronously to the end.  The state of
    the machine is the internal state of the operators ([zip]'s two buffers,
    [flatMap]'s active inner subscriptions, [toArray]'s array, the promise of
    [toPromise]) together with a chronological log of the calls the pipeline
    makes on its collaborators.

    The operators are read as rxjs 6 defines them.  [zip] buffers each source
    and emits the pair of the two oldest values as soon as both buffers hold
    one; it completes when a source completes with an empty buffer, or when an
    emission empties the buffer of a completed source.  [merge] forwards the
    values of both sources and completes when both have.  [flatMap] subscribes
    to every promise at once, forwards each value when the promise fulfils,
    fails when one rejects, and completes when its source has completed and
    no promise is left.  [toArray] emits its array on completion, and
    [toPromise] resolves with it.  A completed or failed subscriber ignores
    what arrives later. *)

From stdpp Require Import base list strings.
From Stdlib Require Import Lia.


(** ** Types of stryker-api and of the collaborators *)

Module MutantStatus.
(** Modelled from the spec: the enum [MutantStatus] of stryker-api/report
    (the six kinds of verdict). *)
Inductive t := NoCoverage | Killed | Survived | TimedOut | RuntimeError | TranspileError.
#[global] Instance eq_dec : EqDecision t.
Proof. solve_decision. Defined.
End MutantStatus.

Module RunStatus.
(** Modelled from the spec: the enum [RunStatus] of stryker-api/test_runner
    (completed, errored, timed out).  [Other] stands for a value outside the
    declared enum, which the untyped runtime can still hand to the
    [switch] of [collectMutantResult]. *)
Inductive t := Complete | Error | Timeout | Other.
#[global] Instance eq_dec : EqDecision t.
Proof. solve_decision. Defined.
End RunStatus.

Module TestStatus.
(** Modelled from the spec: the enum [TestStatus] of stryker-api/test_runner
    (per-test pass, fail, skip). *)
Inductive t := Success | Failed | Skipped.
#[global] Instance eq_dec : EqDecision t.
Proof. solve_decision. Defined.
End TestStatus.

Module TestResult.
(** Modelled from the spec: one entry of [RunResult.tests]. *)
Record t := mk { name : string; status : TestStatus.t }.
End TestResult.

Module RunResult.
(** Modelled from the spec: the RunOutcome a sandbox reports. *)
Record t := mk { status : RunStatus.t; tests : list TestResult.t }.
End RunResult.

Module MutantResult.
(** Modelled from the spec: the Verdict, a status and the names of the
    tests that ran, for the mutant identified by [id]. *)
Record t := mk { id : string; status : MutantStatus.t; testsRan : list string }.
End MutantResult.

Module TestableMutant.
(** Modelled from the spec: a Mutant, with its identity and the tests
    selected for it. *)
Record t := mk { id : string; selectedTests : list string }.

(** Modelled from the spec: [mutant.result(status, testsRan)] builds the
    Verdict of this mutant. *)
Definition result (mutant : t) (status : MutantStatus.t) (testsRan : list string)
  : MutantResult.t :=
  MutantResult.mk (id mutant) status testsRan.
End TestableMutant.

Module TranspileResult.
(** Modelled from the spec: the outcome of the transform; [error] is the
    message of a failure, or null. *)
Record t := mk { error : option string }.
End TranspileResult.

Module TranspiledMutant.
(** Modelled from the spec: a Mutant plus the outcome of transforming it. *)
Record t := mk {
  mutant : TestableMutant.t;
  transpileResult : TranspileResult.t;
  changedAnyTranspiledFiles : bool }.
End TranspiledMutant.

(** A sandbox is used only through its identity and its [runMutant] method,
    whose answer arrives as an event of the machine below. *)
Inductive Sandbox := SandboxNo (n : nat).

#[global] Instance Sandbox_eq_dec : EqDecision Sandbox.
Proof. solve_decision. Defined.

(** The value [{ sandbox, result }] that [runInSandbox] resolves with. *)
Module Used.
Record t := mk { sandbox : Sandbox; result : MutantResult.t }.
End Used.

(** ** JavaScript truthiness of the tested values *)

(** [if (transpileResult.error)]: null and the empty string are falsy. *)
Definition truthy (error : option string) : bool :=
  match error with
  | Some (String _ _) => true
  | Some EmptyString => false
  | None => false
  end.

(** ** The classifier *)

Definition createTuple {T1 T2 : Type} (a : T1) (b : T2) : T1 * T2 := (a, b).

Definition earlyResult (pair : TranspiledMutant.t * Sandbox)
  : TranspiledMutant.t * Sandbox * option MutantResult.t :=
  let '(transpiledMutant, sandbox) := pair in
  let mutant := TranspiledMutant.mutant transpiledMutant in
  if truthy (TranspileResult.error (TranspiledMutant.transpileResult transpiledMutant)) then
    (transpiledMutant, sandbox,
     Some (TestableMutant.result mutant MutantStatus.TranspileError []))
  else if Nat.eqb (length (TestableMutant.selectedTests mutant)) 0 then
    (transpiledMutant, sandbox,
     Some (TestableMutant.result mutant MutantStatus.NoCoverage []))
  else if negb (TranspiledMutant.changedAnyTranspiledFiles transpiledMutant) then
    (transpiledMutant, sandbox,
     Some (TestableMutant.result mutant MutantStatus.Survived []))
  else
    (transpiledMutant, sandbox, None).

Definition collectMutantResult (mutant : TestableMutant.t) (runResult : option RunResult.t)
  : MutantResult.t :=
  let status := MutantStatus.NoCoverage in
  match runResult with
  | Some runResult =>
      let status :=
        match RunResult.status runResult with
        | RunStatus.Timeout => MutantStatus.TimedOut
        | RunStatus.Error => MutantStatus.RuntimeError
        | RunStatus.Complete =>
            if existsb (fun t => bool_decide (TestResult.status t = TestStatus.Failed))
                 (RunResult.tests runResult)
            then MutantStatus.Killed
            else MutantStatus.Survived
        | RunStatus.Other => status
        end in
      let testNames :=
        map TestResult.name
          (filter (fun t => TestResult.status t <> TestStatus.Skipped)
             (RunResult.tests runResult)) in
      TestableMutant.result mutant status testNames
  | None =>
      TestableMutant.result mutant status []
  end.

(** The promise [runInSandbox] returns: either [Promise.resolve(v)], or
    [sandbox.runMutant(transpiledMutant).then(k)], which calls [runMutant]
    and fulfils with [k runResult] once the sandbox has answered. *)
Inductive SandboxPromise :=
| Promise_resolve (v : Used.t)
| RunMutant_then (sandbox : Sandbox) (transpiledMutant : TranspiledMutant.t)
    (k : option RunResult.t -> Used.t).

Definition runInSandbox (triple : TranspiledMutant.t * Sandbox * option MutantResult.t)
  : SandboxPromise :=
  let '(transpiledMutant, sandbox, earlyResult) := triple in
  match earlyResult with
  | Some earlyResult => Promise_resolve (Used.mk sandbox earlyResult)
  | None =>
      RunMutant_then sandbox transpiledMutant
        (fun runResult =>
           Used.mk sandbox
             (collectMutantResult (TranspiledMutant.mutant transpiledMutant) runResult))
  end.

(** Does building this promise call [sandbox.runMutant]? *)
Definition invokesRunMutant (p : SandboxPromise) : bool :=
  match p with
  | Promise_resolve _ => false
  | RunMutant_then _ _ _ => true
  end.

(** The value a promise fulfils with, given the sandbox's answer. *)
Definition fulfilment (p : SandboxPromise) (runResult : option RunResult.t) : Used.t :=
  match p with
  | Promise_resolve v => v
  | RunMutant_then _ _ k => k runResult
  end.

(** ** The pipeline of [runInsideSandboxes] *)

(** Calls the pipeline makes, in the order it makes them. *)
Inductive Call :=
| Call_createTuple (a : TranspiledMutant.t) (b : Sandbox)
| Call_runMutant (sandbox : Sandbox) (transpiledMutant : TranspiledMutant.t)
| Call_recycle (used : Used.t)
| Call_onMutantTested (mutantResult : MutantResult.t)
| Call_completeRecycle
| Call_recycleObserver_complete
| Call_onAllMutantsTested (mutantResults : list MutantResult.t).

(** The promise [toPromise] hands to [run]. *)
Inductive Settled :=
| Pending
| Resolved (mutantResults : list MutantResult.t)
| Rejected.

Record State := mkState {
  (** [recycleObserver] has been assigned: [recycled] is subscribed. *)
  recycleObserver : bool;
  (** [transpiledMutants] has completed. *)
  mutantsStopped : bool;
  (** the pool's stream [sandboxes] has completed. *)
  sandboxesStopped : bool;
  (** [zip]'s buffer of mutants not yet paired. *)
  mutantBuffer : list TranspiledMutant.t;
  (** [zip]'s buffer of sandboxes of the merged supply not yet paired. *)
  sandboxBuffer : list Sandbox;
  (** [zip] has completed downstream (and dropped its subscriptions). *)
  zipCompleted : bool;
  (** [flatMap]'s inner subscriptions: promises not yet delivered. *)
  active : list SandboxPromise;
  (** [toArray]'s array. *)
  collected : list MutantResult.t;
  settled : Settled;
  calls : list Call }.

Definition init : State :=
  mkState false false false [] [] false [] [] Pending [].

Definition log (c : Call) (st : State) : State :=
  mkState (recycleObserver st) (mutantsStopped st) (sandboxesStopped st)
    (mutantBuffer st) (sandboxBuffer st) (zipCompleted st) (active st)
    (collected st) (settled st) (calls st ++ [c]).

Definition settle (s : Settled) (st : State) : State :=
  mkState (recycleObserver st) (mutantsStopped st) (sandboxesStopped st)
    (mutantBuffer st) (sandboxBuffer st) (zipCompleted st) (active st)
    (collected st) s (calls st).

Definition set_active (a : list SandboxPromise) (st : State) : State :=
  mkState (recycleObserver st) (mutantsStopped st) (sandboxesStopped st)
    (mutantBuffer st) (sandboxBuffer st) (zipCompleted st) a
    (collected st) (settled st) (calls st).

Definition set_collected (rs : list MutantResult.t) (st : State) : State :=
  mkState (recycleObserver st) (mutantsStopped st) (sandboxesStopped st)
    (mutantBuffer st) (sandboxBuffer st) (zipCompleted st) (active st)
    rs (settled st) (calls st).

Definition set_buffers (ms : list TranspiledMutant.t) (ss : list Sandbox) (st : State)
  : State :=
  mkState (recycleObserver st) (mutantsStopped st) (sandboxesStopped st)
    ms ss (zipCompleted st) (active st)
    (collected st) (settled st) (calls st).

Definition set_zipCompleted (st : State) : State :=
  mkState (recycleObserver st) (mutantsStopped st) (sandboxesStopped st)
    (mutantBuffer st) (sandboxBuffer st) true (active st)
    (collected st) (settled st) (calls st).

Definition set_mutantsStopped (st : State) : State :=
  mkState (recycleObserver st) true (sandboxesStopped st)
    (mutantBuffer st) (sandboxBuffer st) (zipCompleted st) (active st)
    (collected st) (settled st) (calls st).

Definition set_sandboxesStopped (st : State) : State :=
  mkState (recycleObserver st) (mutantsStopped st) true
    (mutantBuffer st) (sandboxBuffer st) (zipCompleted st) (active st)
    (collected st) (settled st) (calls st).

Definition set_recycleObserver (st : State) : State :=
  mkState true (mutantsStopped st) (sandboxesStopped st)
    (mutantBuffer st) (sandboxBuffer st) (zipCompleted st) (active st)
    (collected st) (settled st) (calls st).

(** An error reaches [toPromise]: the promise of the run rejects. *)
Definition reject (st : State) : State := settle Rejected st.

(** [completeRecycle]: completes [recycled] when it was ever subscribed. *)
Definition completeRecycle (st : State) : State :=
  let st := log Call_completeRecycle st in
  if recycleObserver st then log Call_recycleObserver_complete st else st.

(** [flatMap] has seen its source complete and its last inner subscription
    end: [toArray] emits its array, which passes [tap(completeRecycle)] and
    [tap(reportAll(reporter))], and [toPromise] resolves with it. *)
Definition toArray_complete (st : State) : State :=
  let mutantResults := collected st in
  let st := completeRecycle st in
  let st := log (Call_onAllMutantsTested mutantResults) st in
  settle (Resolved mutantResults) st.

Definition flatMap_checkComplete (st : State) : State :=
  match zipCompleted st, active st with
  | true, [] => toArray_complete st
  | _, _ => st
  end.

(** [zip] completes: the completion passes [map(earlyResult)] and reaches
    [flatMap]. *)
Definition zip_complete (st : State) : State :=
  flatMap_checkComplete (set_zipCompleted st).

(** [zip] emits [createTuple(a, b)], [map(earlyResult)] classifies it and
    [flatMap(runInSandbox)] subscribes to the promise of its verdict. *)
Definition zip_emit (a : TranspiledMutant.t) (b : Sandbox) (st : State) : State :=
  let st := log (Call_createTuple a b) st in
  let p := runInSandbox (earlyResult (createTuple a b)) in
  let st :=
    match p with
    | RunMutant_then sandbox transpiledMutant _ =>
        log (Call_runMutant sandbox transpiledMutant) st
    | Promise_resolve _ => st
    end in
  set_active (active st ++ [p]) st.

(** [zip] looks at its buffers after a value has arrived: when both hold a
    value it emits the pair of their heads, and completes when that leaves the
    buffer of a completed source empty.  Only [transpiledMutants] can have
    completed by then: the merged supply completes after [recycled] has, which
    [completeRecycle] triggers once [zip] has already completed. *)
Definition checkIterators (st : State) : State :=
  match mutantBuffer st, sandboxBuffer st with
  | a :: ms, b :: ss =>
      let st := set_buffers ms ss st in
      let shouldComplete :=
        mutantsStopped st && match ms with [] => true | _ => false end in
      let st := zip_emit a b st in
      if shouldComplete then zip_complete st else st
  | _, _ => st
  end.

(** A sandbox arrives on [merge(recycled, sandboxes)].  Once [zip] has
    completed it has dropped its subscriptions and the sandbox goes nowhere. *)
Definition merged_next (b : Sandbox) (st : State) : State :=
  if zipCompleted st then st
  else checkIterators (set_buffers (mutantBuffer st) (sandboxBuffer st ++ [b]) st).

(** [recycle]: [recycleObserver.next(sandbox.sandbox)], which throws when
    [recycleObserver] was never assigned. *)
Definition recycle (used : Used.t) (st : State) : option State :=
  if recycleObserver st
  then Some (merged_next (Used.sandbox used) (log (Call_recycle used) st))
  else None.

(** The [i]-th active promise fulfils: its value goes through [tap(recycle)],
    [map(({ result }) => result)], [tap(reportResult(reporter))] and
    [toArray]; then the inner subscription ends. *)
Definition promise_fulfil (i : nat) (runResult : option RunResult.t) (st : State) : State :=
  match active st !! i with
  | None => st
  | Some p =>
      let used := fulfilment p runResult in
      match recycle used st with
      | None => reject st
      | Some st =>
          let result := Used.result used in
          let st := log (Call_onMutantTested result) st in
          let st := set_collected (collected st ++ [result]) st in
          let st := set_active (delete i (active st)) st in
          flatMap_checkComplete st
      end
  end.

(** The promise of a [runMutant] call rejects: [runMutant] itself rejected,
    or [collectMutantResult] threw in its [then] callback.  [Promise.resolve]
    cannot reject. *)
Definition promise_reject (i : nat) (st : State) : State :=
  match active st !! i with
  | Some (RunMutant_then _ _ _) => reject st
  | _ => st
  end.

(** [transpiledMutants] emits, completes, fails. *)
Definition mutant_next (a : TranspiledMutant.t) (st : State) : State :=
  if mutantsStopped st then st
  else checkIterators (set_buffers (mutantBuffer st ++ [a]) (sandboxBuffer st) st).

Definition mutants_complete (st : State) : State :=
  if mutantsStopped st then st
  else
    let st := set_mutantsStopped st in
    match mutantBuffer st with
    | [] => zip_complete st
    | _ => st
    end.

Definition mutants_error (st : State) : State :=
  if mutantsStopped st then st else reject st.

(** The pool's [sandboxes] emits, completes, fails; it is subscribed together
    with [recycled]. *)
Definition sandbox_next (b : Sandbox) (st : State) : State :=
  if recycleObserver st && negb (sandboxesStopped st) then merged_next b st else st.

Definition sandboxes_complete (st : State) : State :=
  if recycleObserver st then set_sandboxesStopped st else st.

Definition sandboxes_error (st : State) : State :=
  if recycleObserver st && negb (sandboxesStopped st) && negb (zipCompleted st)
  then reject st else st.

(** What the collaborators and the event loop do to the pipeline. *)
Inductive Event :=
| Subscribe_supply                               (* [zip] subscribes to [merge(recycled, sandboxes)] *)
| Mutant_next (a : TranspiledMutant.t)           (* [transpiledMutants] emits *)
| Mutants_complete
| Mutants_error
| Sandbox_next (b : Sandbox)                     (* the pool's [sandboxes] emits *)
| Sandboxes_complete
| Sandboxes_error
| Promise_fulfil (i : nat) (runResult : option RunResult.t)
| Promise_reject (i : nat).

(** Once the promise of the run has settled every subscription is closed and
    nothing reaches the pipeline any more. *)
Definition step (st : State) (ev : Event) : State :=
  match settled st with
  | Pending =>
      match ev with
      | Subscribe_supply => set_recycleObserver st
      | Mutant_next a => mutant_next a st
      | Mutants_complete => mutants_complete st
      | Mutants_error => mutants_error st
      | Sandbox_next b => sandbox_next b st
      | Sandboxes_complete => sandboxes_complete st
      | Sandboxes_error => sandboxes_error st
      | Promise_fulfil i runResult => promise_fulfil i runResult st
      | Promise_reject i => promise_reject i st
      end
  | _ => st
  end.

(** The pipeline after the given callbacks.  [run] awaits the promise in
    [settled] and returns what it resolves with. *)
Definition runInsideSandboxes (evs : list Event) : State := foldl step init evs.

(** ** Reading the call log and the event sequence *)

Definition pairings (cs : list Call) : list (TranspiledMutant.t * Sandbox) :=
  omap (fun c => match c with Call_createTuple a b => Some (a, b) | _ => None end) cs.

Definition runMutants (cs : list Call) : list (TranspiledMutant.t * Sandbox) :=
  omap (fun c => match c with Call_runMutant b a => Some (a, b) | _ => None end) cs.

Definition recycles (cs : list Call) : list Used.t :=
  omap (fun c => match c with Call_recycle u => Some u | _ => None end) cs.

Definition tested (cs : list Call) : list MutantResult.t :=
  omap (fun c => match c with Call_onMutantTested r => Some r | _ => None end) cs.

Definition allTested (cs : list Call) : list (list MutantResult.t) :=
  omap (fun c => match c with Call_onAllMutantsTested rs => Some rs | _ => None end) cs.

(** How many times [completeRecycle] was invoked. *)
Definition closes (cs : list Call) : nat :=
  length (omap (fun c => match c with Call_completeRecycle => Some tt | _ => None end) cs).

(** The mutants [transpiledMutants] emits: an observable emits nothing after
    it has completed or failed. *)
Fixpoint mutantsOf (evs : list Event) : list TranspiledMutant.t :=
  match evs with
  | [] => []
  | Mutant_next a :: evs => a :: mutantsOf evs
  | Mutants_complete :: _ => []
  | Mutants_error :: _ => []
  | _ :: evs => mutantsOf evs
  end.

(** Has [transpiledMutants] completed or failed? *)
Fixpoint mutantsClosed (evs : list Event) : bool :=
  match evs with
  | [] => false
  | Mutants_complete :: _ => true
  | Mutants_error :: _ => true
  | _ :: evs => mutantsClosed evs
  end.

(** The sandboxes the pool has handed out. *)
Definition poolOf (evs : list Event) : list Sandbox :=
  omap (fun ev => match ev with Sandbox_next b => Some b | _ => None end) evs.

(** ** Identity of a pairing: the mutant's id and the sandbox *)

Definition mutantId (a : TranspiledMutant.t) : string :=
  TestableMutant.id (TranspiledMutant.mutant a).

Definition pairing_key (p : TranspiledMutant.t * Sandbox) : string * Sandbox :=
  (mutantId p.1, p.2).

Definition used_key (u : Used.t) : string * Sandbox :=
  (MutantResult.id (Used.result u), Used.sandbox u).

Definition promise_key (p : SandboxPromise) : string * Sandbox :=
  match p with
  | Promise_resolve v => used_key v
  | RunMutant_then sandbox transpiledMutant _ => (mutantId transpiledMutant, sandbox)
  end.

(** Does the pairing need the sandbox to run, that is, has it no early
    result? *)
Definition needsRun (p : TranspiledMutant.t * Sandbox) : bool :=
  match (earlyResult p).2 with
  | Some _ => false
  | None => true
  end.

(** The three early-exit checks of [earlyResult], as properties of the
    mutant: what the code tests, in the words of the specification. *)
Definition transformFailed (a : TranspiledMutant.t) : Prop :=
  truthy (TranspileResult.error (TranspiledMutant.transpileResult a)) = true.

Definition notCovered (a : TranspiledMutant.t) : Prop :=
  TestableMutant.selectedTests (TranspiledMutant.mutant a) = [].

Definition noChange (a : TranspiledMutant.t) : Prop :=
  TranspiledMutant.changedAnyTranspiledFiles a = false.

(** The verdict of a mutant with the given status and tests. *)
Definition verdict (a : TranspiledMutant.t) (status : MutantStatus.t)
    (testsRan : list string) : MutantResult.t :=
  TestableMutant.result (TranspiledMutant.mutant a) status testsRan.

(** A test was exercised by a run when it was not skipped. *)
Definition exercised (t : TestResult.t) : Prop :=
  TestResult.status t <> TestStatus.Skipped.

(** The promise [flatMap] subscribes to for the pair [createTuple a b]. *)
Definition paired (a : TranspiledMutant.t) (b : Sandbox) : SandboxPromise :=
  runInSandbox (earlyResult (createTuple a b)).

(** The calls [zip_emit] logs for the pair [createTuple a b]. *)
Definition pair_calls (a : TranspiledMutant.t) (b : Sandbox) : list Call :=
  Call_createTuple a b :: (if needsRun (a, b) then [Call_runMutant b a] else []).

Definition promise_sandbox (p : SandboxPromise) : Sandbox := (promise_key p).2.

(** The calls that end a resolved run. *)
Definition closing_calls (observer : bool) (rs : list MutantResult.t) : list Call :=
  Call_completeRecycle ::
  (if observer then [Call_recycleObserver_complete] else []) ++
  [Call_onAllMutantsTested rs].

(** Mutants not yet classified: waiting for a sandbox, or in one. *)
Definition outstanding (st : State) : nat :=
  length (mutantBuffer st) + length (active st).

(** Sandboxes in circulation: held by a pairing, or waiting for a mutant. *)
Definition held (st : State) : list Sandbox :=
  map promise_sandbox (active st) ++ sandboxBuffer st.

Definition circulating (st : State) : nat := length (held st).

(** Mutants received so far, in the order [zip] takes them. *)
Definition seen (st : State) : list TranspiledMutant.t :=
  map fst (pairings (calls st)) ++ mutantBuffer st.

(** ** Invariant of the pipeline *)

Definition promise_wf (p : SandboxPromise) : Prop :=
  exists a b, p = paired a b.

Definition quiet (cs : list Call) : Prop := closes cs = 0 /\ allTested cs = [].

Record Inv (st : State) : Prop := mkInv {
  inv_wf : Forall promise_wf (active st);
  inv_tested : tested (calls st) = collected st;
  inv_recycled : map Used.result (recycles (calls st)) = collected st;
  inv_pairs :
    map used_key (recycles (calls st)) ++ map promise_key (active st)
    ≡ₚ map pairing_key (pairings (calls st));
  inv_runs : runMutants (calls st) = List.filter needsRun (pairings (calls st));
  inv_zip :
    zipCompleted st = (mutantsStopped st && bool_decide (mutantBuffer st = []));
  inv_observer :
    recycleObserver st = false -> sandboxBuffer st = [] /\ active st = [];
  inv_eager : mutantBuffer st = [] \/ sandboxBuffer st = [];
  inv_settled :
    match settled st with
    | Pending => quiet (calls st) /\ (zipCompleted st = true -> active st <> [])
    | Rejected => quiet (calls st)
    | Resolved rs =>
        rs = collected st /\ zipCompleted st = true /\ active st = [] /\
        exists cs, calls st = cs ++ closing_calls (recycleObserver st) rs /\ quiet cs
    end }.

(** ** The state accounts for the events received *)

Record Link (evs : list Event) (st : State) : Prop := mkLink {
  link_stopped : settled st <> Rejected -> mutantsStopped st = mutantsClosed evs;
  link_seen : settled st <> Rejected -> seen st = mutantsOf evs;
  link_held : held st ⊆+ poolOf evs }.

(** ** Sample inputs *)

Module Sample.
Definition sandbox0 : Sandbox := SandboxNo 0.
Definition sandbox1 : Sandbox := SandboxNo 1.

(** No test selected. *)
Definition uncovered : TranspiledMutant.t :=
  TranspiledMutant.mk (TestableMutant.mk "uncovered"%string [])
    (TranspileResult.mk None) true.

(** The transform failed. *)
Definition broken : TranspiledMutant.t :=
  TranspiledMutant.mk (TestableMutant.mk "broken"%string ["adds"%string])
    (TranspileResult.mk (Some "SyntaxError"%string)) true.

(** The transform failed and no test is selected. *)
Definition broken_uncovered : TranspiledMutant.t :=
  TranspiledMutant.mk (TestableMutant.mk "broken_uncovered"%string [])
    (TranspileResult.mk (Some "SyntaxError"%string)) true.

(** The transform changed no transpiled file. *)
Definition unchanged : TranspiledMutant.t :=
  TranspiledMutant.mk (TestableMutant.mk "unchanged"%string ["adds"%string])
    (TranspileResult.mk None) false.

(** Two mutants that have to run. *)
Definition runnable : TranspiledMutant.t :=
  TranspiledMutant.mk (TestableMutant.mk "runnable"%string ["adds"%string])
    (TranspileResult.mk None) true.

Definition runnable2 : TranspiledMutant.t :=
  TranspiledMutant.mk (TestableMutant.mk "runnable2"%string ["adds"%string])
    (TranspileResult.mk None) true.

Definition killing : RunResult.t :=
  RunResult.mk RunStatus.Complete
    [TestResult.mk "adds"%string TestStatus.Failed; TestResult.mk "subtracts"%string TestStatus.Skipped].

Definition passing : RunResult.t :=
  RunResult.mk RunStatus.Complete
    [TestResult.mk "adds"%string TestStatus.Success; TestResult.mk "subtracts"%string TestStatus.Skipped].

Definition timeout : RunResult.t := RunResult.mk RunStatus.Timeout [].

(** A timeout after one test had passed and another had started. *)
Definition timeout_late : RunResult.t :=
  RunResult.mk RunStatus.Timeout
    [TestResult.mk "adds"%string TestStatus.Success; TestResult.mk "subtracts"%string TestStatus.Failed].

Definition unknown : RunResult.t :=
  RunResult.mk RunStatus.Other
    [TestResult.mk "adds"%string TestStatus.Success; TestResult.mk "subtracts"%string TestStatus.Skipped].

(** A mutant that has to run, with the given identity. *)
Definition named (id : string) : TranspiledMutant.t :=
  TranspiledMutant.mk (TestableMutant.mk id ["adds"%string])
    (TranspileResult.mk None) true.

(** One sandbox, one mutant that has to run, and the mutants exhausted. *)
Definition one_running : list Event :=
  [Subscribe_supply; Sandbox_next sandbox0; Mutant_next runnable; Mutants_complete].

(** Two sandboxes and two running mutants; the second finishes first. *)
Definition out_of_order : list Event :=
  [Subscribe_supply; Sandbox_next sandbox0; Sandbox_next sandbox1;
   Mutant_next runnable; Mutant_next runnable2; Mutants_complete;
   Promise_fulfil 1 (Some passing); Promise_fulfil 0 (Some killing)].

(** Five mutants that have to run on a pool of two sandboxes. *)
Definition five_on_two : list Event :=
  [Subscribe_supply; Sandbox_next sandbox0; Sandbox_next sandbox1]
  ++ map (fun id => Mutant_next (named id))
       ["m1"%string; "m2"%string; "m3"%string; "m4"%string; "m5"%string]
  ++ [Mutants_complete].

(** The five mutants of [five_on_two]. *)
Definition five : list TranspiledMutant.t :=
  map named ["m1"%string; "m2"%string; "m3"%string; "m4"%string; "m5"%string].

(** Five deliveries, the promise paired last delivering first each time, with
    answers of every kind. *)
Definition last_first : list (nat * option RunResult.t) :=
  [(1, Some killing); (3, Some passing); (1, None); (5, Some timeout); (0, Some unknown)].
End Sample.

(** ** Further readings of the events and of the call log *)

(** How many times [recycleObserver.complete()] was called. *)
Definition observerCompletes (cs : list Call) : nat :=
  length
    (omap (fun c => match c with Call_recycleObserver_complete => Some tt | _ => None end)
       cs).

(** A promise built for one of the pairings [ps], and a value such a promise
    fulfils with. *)
Definition from_pairing (ps : list (TranspiledMutant.t * Sandbox)) (p : SandboxPromise)
  : Prop :=
  exists a b, In (a, b) ps /\ p = paired a b.

Definition delivered_by (ps : list (TranspiledMutant.t * Sandbox)) (u : Used.t) : Prop :=
  exists a b runResult, In (a, b) ps /\ u = fulfilment (paired a b) runResult.

(** Where the promises, the verdicts and the sandboxes of a state come
    from. *)
Record Provenance (evs : list Event) (st : State) : Prop := mkProvenance {
  prov_active : Forall (from_pairing (pairings (calls st))) (active st);
  prov_recycles : Forall (delivered_by (pairings (calls st))) (recycles (calls st));
  prov_sandboxes : Forall (fun p => In p.2 (poolOf evs)) (pairings (calls st));
  prov_subscribed : recycleObserver st = false -> pairings (calls st) = [];
  prov_observer :
    observerCompletes (calls st)
    = match settled st with
      | Resolved _ => if recycleObserver st then 1 else 0
      | _ => 0
      end }.

(** The same, for the promises [ac] and the call log [ca] of a state and the
    sandboxes [pool] handed out. *)
Definition provenance_of (pool : list Sandbox) (ac : list SandboxPromise)
    (ca : list Call) : Prop :=
  Forall (from_pairing (pairings ca)) ac
  /\ Forall (delivered_by (pairings ca)) (recycles ca)
  /\ Forall (fun p => In p.2 pool) (pairings ca).

(** ** [run] *)

(** Calls [run] makes on the transpiler and on the pool, besides the
    pipeline. *)
Inductive RunCall :=
| Run_newMutantTranspiler
| Run_initialize
| Run_newSandboxPool
| Run_streamSandboxes
| Run_transpileMutants (allMutants : list TestableMutant.t)
| Run_disposeAll
| Run_dispose.

(** Where the [async] function stands: at one of its three [await]s, or
    finished. *)
Inductive RunPhase :=
| Await_initialize
| Await_runInsideSandboxes
| Await_disposeAll (result : list MutantResult.t)
| Returned (result : list MutantResult.t)
| Thrown.

Record RunState := mkRun {
  phase : RunPhase;
  pipeline : State;
  runCalls : list RunCall }.

Inductive RunEvent :=
| Initialize_fulfil
| Initialize_reject
| In_pipeline (ev : Event)
| DisposeAll_fulfil
| DisposeAll_reject.

(** [run] up to its first [await]. *)
Definition run_start : RunState :=
  mkRun Await_initialize init [Run_newMutantTranspiler; Run_initialize].

(** [run] resumes after [await this.runInsideSandboxes(...)] once that promise
    has settled. *)
Definition after_runInsideSandboxes (rst : RunState) : RunState :=
  match settled (pipeline rst) with
  | Pending => rst
  | Resolved result =>
      mkRun (Await_disposeAll result) (pipeline rst) (runCalls rst ++ [Run_disposeAll])
  | Rejected => mkRun Thrown (pipeline rst) (runCalls rst)
  end.

Definition run_step (allMutants : list TestableMutant.t) (rst : RunState) (ev : RunEvent)
  : RunState :=
  match phase rst, ev with
  | Await_initialize, Initialize_fulfil =>
      mkRun Await_runInsideSandboxes init
        (runCalls rst
         ++ [Run_newSandboxPool; Run_streamSandboxes; Run_transpileMutants allMutants])
  | Await_initialize, Initialize_reject =>
      mkRun Thrown (pipeline rst) (runCalls rst)
  | Await_runInsideSandboxes, In_pipeline ev =>
      after_runInsideSandboxes
        (mkRun Await_runInsideSandboxes (step (pipeline rst) ev) (runCalls rst))
  | Await_disposeAll result, DisposeAll_fulfil =>
      mkRun (Returned result) (pipeline rst) (runCalls rst ++ [Run_dispose])
  | Await_disposeAll result, DisposeAll_reject =>
      mkRun Thrown (pipeline rst) (runCalls rst)
  | _, _ => rst
  end.

Definition run (allMutants : list TestableMutant.t) (evs : list RunEvent) : RunState :=
  foldl (run_step allMutants) run_start evs.

(** The events [run] hands to the pipeline: those that arrive once
    [initialize] has fulfilled. *)
Fixpoint forwarded (evs : list RunEvent) : list Event :=
  match evs with
  | [] => []
  | In_pipeline ev :: evs => ev :: forwarded evs
  | _ :: evs => forwarded evs
  end.

Fixpoint pipelineEvents (evs : list RunEvent) : list Event :=
  match evs with
  | [] => []
  | Initialize_fulfil :: evs => forwarded evs
  | Initialize_reject :: _ => []
  | _ :: evs => pipelineEvents evs
  end.

(** The calls of [run] up to each of its [await]s. *)
Definition calls_started : list RunCall := [Run_newMutantTranspiler; Run_initialize].

Definition calls_running (allMutants : list TestableMutant.t) : list RunCall :=
  calls_started
  ++ [Run_newSandboxPool; Run_streamSandboxes; Run_transpileMutants allMutants].

Definition calls_disposing (allMutants : list TestableMutant.t) : list RunCall :=
  calls_running allMutants ++ [Run_disposeAll].

Definition calls_returned (allMutants : list TestableMutant.t) : list RunCall :=
  calls_disposing allMutants ++ [Run_dispose].

(** What holds at each point of [run]. *)
Definition run_inv (allMutants : list TestableMutant.t) (rst : RunState) : Prop :=
  match phase rst with
  | Await_initialize => runCalls rst = calls_started /\ pipeline rst = init
  | Await_runInsideSandboxes =>
      runCalls rst = calls_running allMutants /\ settled (pipeline rst) = Pending
  | Await_disposeAll result =>
      runCalls rst = calls_disposing allMutants
      /\ settled (pipeline rst) = Resolved result
  | Returned result =>
      runCalls rst = calls_returned allMutants
      /\ settled (pipeline rst) = Resolved result
  | Thrown =>
      (runCalls rst = calls_started /\ pipeline rst = init)
      \/ (runCalls rst = calls_running allMutants /\ settled (pipeline rst) = Rejected)
      \/ (runCalls rst = calls_disposing allMutants
          /\ exists result, settled (pipeline rst) = Resolved result)
  end.

(** ** The pool's side of the supply *)

(** What the pool's stream [sandboxes] has done so far, read off the events
    alone: a stream emits to its subscriber only, and nothing after it has
    completed.  [sup_sandboxes] are the sandboxes handed to the pipeline. *)
Record Supply := mkSupply {
  sup_subscribed : bool;
  sup_closed : bool;
  sup_sandboxes : list Sandbox }.

Definition supply_step (s : Supply) (ev : Event) : Supply :=
  match ev with
  | Subscribe_supply => mkSupply true (sup_closed s) (sup_sandboxes s)
  | Sandboxes_complete =>
      if sup_subscribed s then mkSupply true true (sup_sandboxes s) else s
  | Sandbox_next b =>
      if sup_subscribed s && negb (sup_closed s)
      then mkSupply (sup_subscribed s) (sup_closed s) (sup_sandboxes s ++ [b])
      else s
  | _ => s
  end.

Definition supplyOf (evs : list Event) : Supply :=
  foldl supply_step (mkSupply false false []) evs.

Definition supplied (evs : list Event) : list Sandbox := sup_sandboxes (supplyOf evs).

(** No sandbox leaves circulation while [zip] may still need it. *)
Record Conserved (evs : list Event) (st : State) : Prop := mkConserved {
  cons_subscribed :
    settled st = Pending -> recycleObserver st = sup_subscribed (supplyOf evs);
  cons_closed :
    settled st = Pending -> sandboxesStopped st = sup_closed (supplyOf evs);
  cons_held :
    settled st = Pending -> zipCompleted st = false -> held st ≡ₚ supplied evs }.

(** ** Schedules of deliveries *)

(** The event loop picks which pending promise delivers next, and the
    sandbox picks the answer: a choice is a number, read modulo the number of
    pending promises, and an answer.  [schedule st choices] are the
    deliveries these choices make from the state [st]. *)
Fixpoint schedule (st : State) (choices : list (nat * option RunResult.t)) : list Event :=
  match choices with
  | [] => []
  | (k, runResult) :: choices =>
      let ev := Promise_fulfil (k mod length (active st)) runResult in
      ev :: schedule (step st ev) choices
  end.

(** The promise [p] delivered the answer [runResult] in the run [evs]: at
    some event of the run it was pending, and the event fulfilled it with that
    answer. *)
Definition delivered_in (evs : list Event) (p : SandboxPromise)
    (runResult : option RunResult.t) : Prop :=
  exists evs1 evs2 i,
    evs = evs1 ++ Promise_fulfil i runResult :: evs2
    /\ settled (runInsideSandboxes evs1) = Pending
    /\ active (runInsideSandboxes evs1) !! i = Some p.

(** ** [collectMutantResult] on what the runtime can hand it *)

Module Untyped.
(** What [sandbox.runMutant] can resolve with when nothing enforces the
    declared type: null or undefined, or a value that has a [status]
    ([RunStatus.Other] when it is missing or unknown) and may lack the array
    [tests]. *)
Inductive Answer :=
| null
| object (status : RunStatus.t) (tests : option (list TestResult.t)).

(** [collectMutantResult], with [None] for the TypeError that
    [runResult.tests.some] and [runResult.tests.filter] throw when [tests] is
    undefined. *)
Definition collectMutantResult (mutant : TestableMutant.t) (runResult : Answer)
  : option MutantResult.t :=
  let status := MutantStatus.NoCoverage in
  match runResult with
  | object runStatus tests =>
      let status :=
        match runStatus with
        | RunStatus.Timeout => Some MutantStatus.TimedOut
        | RunStatus.Error => Some MutantStatus.RuntimeError
        | RunStatus.Complete =>
            match tests with
            | Some tests =>
                if existsb (fun t => bool_decide (TestResult.status t = TestStatus.Failed))
                     tests
                then Some MutantStatus.Killed
                else Some MutantStatus.Survived
            | None => None
            end
        | RunStatus.Other => Some status
        end in
      match status, tests with
      | Some status, Some tests =>
          let testNames :=
            map TestResult.name
              (filter (fun t => TestResult.status t <> TestStatus.Skipped) tests) in
          Some (TestableMutant.result mutant status testNames)
      | _, _ => None
      end
  | null => Some (TestableMutant.result mutant status [])
  end.

(** The answers of the declared type [RunResult | null]. *)
Definition typed (runResult : option RunResult.t) : Answer :=
  match runResult with
  | Some runResult => object (RunResult.status runResult) (Some (RunResult.tests runResult))
  | None => null
  end.
End Untyped.

(** * Proofs *)

(** ** The promises built for a pairing *)

Lemma paired_key a b : promise_key (paired a b) = pairing_key (a, b).
Proof.
  unfold paired, createTuple, earlyResult, runInSandbox, pairing_key, mutantId.
  repeat case_match; simplify_eq; reflexivity.
Qed.

Lemma paired_wf a b : promise_wf (paired a b).
Proof. exists a, b. reflexivity. Qed.

Lemma fulfilment_key p runResult :
  promise_wf p -> used_key (fulfilment p runResult) = promise_key p.
Proof.
  intros (a & b & ->).
  unfold paired, createTuple, earlyResult, runInSandbox.
  repeat case_match; simplify_eq; try reflexivity.
  unfold used_key, collectMutantResult; simpl.
  destruct runResult; reflexivity.
Qed.

Lemma paired_sandbox a b : promise_sandbox (paired a b) = b.
Proof. unfold promise_sandbox. rewrite paired_key. reflexivity. Qed.

(** ** What each handler does to the state *)

Lemma snoc_not_nil {A} (l : list A) x : l ++ [x] <> [].
Proof. destruct l; discriminate. Qed.

Lemma delete_snoc {A} (l : list A) i x :
  i < length l -> delete i (l ++ [x]) = delete i l ++ [x].
Proof.
  revert i. induction l as [|y l IH]; intros [|i] Hi; simpl in *; try lia; try reflexivity.
  f_equal. apply IH. lia.
Qed.

Lemma zip_emit_mk a b ro ms ss mb sb zc ac co se ca :
  zip_emit a b (mkState ro ms ss mb sb zc ac co se ca)
  = mkState ro ms ss mb sb zc (ac ++ [paired a b]) co se (ca ++ pair_calls a b).
Proof.
  unfold zip_emit, pair_calls, paired, needsRun, createTuple, earlyResult, runInSandbox, log.
  repeat case_match; simplify_eq; simpl; rewrite <- ?app_assoc; reflexivity.
Qed.

Lemma flatMap_checkComplete_active st :
  active st <> [] -> flatMap_checkComplete st = st.
Proof.
  unfold flatMap_checkComplete. destruct (zipCompleted st), (active st); congruence.
Qed.

Lemma toArray_complete_mk ro ms ss mb sb zc ac co se ca :
  toArray_complete (mkState ro ms ss mb sb zc ac co se ca)
  = mkState ro ms ss mb sb zc ac co (Resolved co) (ca ++ closing_calls ro co).
Proof.
  unfold toArray_complete, completeRecycle, closing_calls, log, settle; simpl.
  destruct ro; simpl; rewrite <- ?app_assoc; reflexivity.
Qed.

Lemma merged_next_mk b ro ms ss mb sb zc ac co se ca :
  mb = [] \/ sb = [] ->
  merged_next b (mkState ro ms ss mb sb zc ac co se ca)
  = if zc then mkState ro ms ss mb sb zc ac co se ca
    else match mb with
         | [] => mkState ro ms ss [] (sb ++ [b]) zc ac co se ca
         | a :: mb' =>
             mkState ro ms ss mb' [] (ms && bool_decide (mb' = []))
               (ac ++ [paired a b]) co se (ca ++ pair_calls a b)
         end.
Proof.
  intros Heager. unfold merged_next; simpl. destruct zc; [reflexivity|].
  unfold checkIterators; simpl.
  destruct mb as [|a mb'].
  - destruct (sb ++ [b]) eqn:E; reflexivity.
  - destruct Heager as [? | ->]; [discriminate|]. simpl.
    unfold set_buffers; simpl. rewrite zip_emit_mk.
    destruct ms; simpl; [|reflexivity].
    destruct mb'; simpl; [|reflexivity].
    unfold zip_complete. rewrite flatMap_checkComplete_active; [reflexivity|].
    simpl. destruct ac; discriminate.
Qed.

Lemma mutant_next_mk a ro ms ss mb sb zc ac co se ca :
  mb = [] \/ sb = [] ->
  mutant_next a (mkState ro ms ss mb sb zc ac co se ca)
  = if ms then mkState ro ms ss mb sb zc ac co se ca
    else match sb with
         | [] => mkState ro ms ss (mb ++ [a]) [] zc ac co se ca
         | b :: sb' =>
             mkState ro ms ss [] sb' zc (ac ++ [paired a b]) co se (ca ++ pair_calls a b)
         end.
Proof.
  intros Heager. unfold mutant_next; simpl. destruct ms; [reflexivity|].
  unfold checkIterators; simpl.
  destruct sb as [|b sb'].
  - destruct (mb ++ [a]); reflexivity.
  - destruct Heager as [-> | ?]; [|discriminate]. simpl.
    unfold set_buffers; simpl. rewrite zip_emit_mk. reflexivity.
Qed.

Lemma promise_fulfil_mk i runResult p ms ss mb sb zc ac co ca :
  ac !! i = Some p -> mb = [] \/ sb = [] ->
  let u := fulfilment p runResult in
  let r := Used.result u in
  let b := Used.sandbox u in
  let ca1 := ca ++ [Call_recycle u] in
  promise_fulfil i runResult (mkState true ms ss mb sb zc ac co Pending ca)
  = if zc then
      match delete i ac with
      | [] =>
          mkState true ms ss mb sb true [] (co ++ [r]) (Resolved (co ++ [r]))
            ((ca1 ++ [Call_onMutantTested r]) ++ closing_calls true (co ++ [r]))
      | q :: ac' =>
          mkState true ms ss mb sb true (q :: ac') (co ++ [r]) Pending
            (ca1 ++ [Call_onMutantTested r])
      end
    else
      match mb with
      | [] =>
          mkState true ms ss [] (sb ++ [b]) false (delete i ac) (co ++ [r]) Pending
            (ca1 ++ [Call_onMutantTested r])
      | a :: mb' =>
          mkState true ms ss mb' [] (ms && bool_decide (mb' = []))
            (delete i ac ++ [paired a b]) (co ++ [r]) Pending
            ((ca1 ++ pair_calls a b) ++ [Call_onMutantTested r])
      end.
Proof.
  intros Hi He u r b ca1. pose proof (lookup_lt_Some _ _ _ Hi) as Hlt.
  unfold promise_fulfil, recycle. cbn [active recycleObserver]. rewrite Hi.
  fold u. unfold log. cbn [recycleObserver mutantsStopped sandboxesStopped mutantBuffer
    sandboxBuffer zipCompleted active collected settled calls Used.sandbox].
  rewrite merged_next_mk by assumption. fold b. fold ca1.
  destruct zc.
  - unfold set_active, set_collected, flatMap_checkComplete; simpl.
    destruct (delete i ac); [rewrite toArray_complete_mk|]; reflexivity.
  - destruct mb as [|a mb']; unfold set_active, set_collected; simpl.
    + reflexivity.
    + rewrite delete_snoc by assumption.
      rewrite flatMap_checkComplete_active by apply snoc_not_nil.
      reflexivity.
Qed.

Lemma mutants_complete_mk ro ms ss mb sb zc ac co se ca :
  mutants_complete (mkState ro ms ss mb sb zc ac co se ca)
  = if ms then mkState ro ms ss mb sb zc ac co se ca
    else match mb, ac with
         | [], [] => mkState ro true ss [] sb true [] co (Resolved co)
                       (ca ++ closing_calls ro co)
         | [], _ :: _ => mkState ro true ss [] sb true ac co se ca
         | _ :: _, _ => mkState ro true ss mb sb zc ac co se ca
         end.
Proof.
  unfold mutants_complete. cbn [mutantsStopped]. destruct ms; [reflexivity|].
  unfold set_mutantsStopped. cbn [mutantBuffer]. destruct mb; [|reflexivity].
  unfold zip_complete, set_zipCompleted, flatMap_checkComplete. simpl.
  destruct ac; [apply toArray_complete_mk|reflexivity].
Qed.

(** ** Reading an extended call log *)

Lemma pairings_pair_calls cs a b : pairings (cs ++ pair_calls a b) = pairings cs ++ [(a, b)].
Proof. unfold pairings, pair_calls. rewrite omap_app. simpl. destruct (needsRun _); reflexivity. Qed.

Lemma runMutants_pair_calls cs a b :
  runMutants (cs ++ pair_calls a b) = runMutants cs ++ List.filter needsRun [(a, b)].
Proof. unfold runMutants, pair_calls. rewrite omap_app. simpl. destruct (needsRun _); reflexivity. Qed.

Lemma recycles_pair_calls cs a b : recycles (cs ++ pair_calls a b) = recycles cs.
Proof.
  unfold recycles, pair_calls. rewrite omap_app. simpl.
  destruct (needsRun _); simpl; apply app_nil_r.
Qed.

Lemma tested_pair_calls cs a b : tested (cs ++ pair_calls a b) = tested cs.
Proof.
  unfold tested, pair_calls. rewrite omap_app. simpl.
  destruct (needsRun _); simpl; apply app_nil_r.
Qed.

Lemma pairings_closing cs ro rs : pairings (cs ++ closing_calls ro rs) = pairings cs.
Proof. unfold pairings. rewrite omap_app. destruct ro; simpl; apply app_nil_r. Qed.

Lemma runMutants_closing cs ro rs : runMutants (cs ++ closing_calls ro rs) = runMutants cs.
Proof. unfold runMutants. rewrite omap_app. destruct ro; simpl; apply app_nil_r. Qed.

Lemma recycles_closing cs ro rs : recycles (cs ++ closing_calls ro rs) = recycles cs.
Proof. unfold recycles. rewrite omap_app. destruct ro; simpl; apply app_nil_r. Qed.

Lemma tested_closing cs ro rs : tested (cs ++ closing_calls ro rs) = tested cs.
Proof. unfold tested. rewrite omap_app. destruct ro; simpl; apply app_nil_r. Qed.

Lemma quiet_snoc cs c :
  match c with Call_completeRecycle | Call_onAllMutantsTested _ => False | _ => True end ->
  quiet cs -> quiet (cs ++ [c]).
Proof.
  unfold quiet, closes, allTested. rewrite !omap_app.
  destruct c; simpl; rewrite ?app_nil_r; tauto.
Qed.

Lemma quiet_pair_calls cs a b : quiet cs -> quiet (cs ++ pair_calls a b).
Proof.
  unfold quiet, closes, allTested, pair_calls. rewrite !omap_app. simpl.
  destruct (needsRun _); simpl; rewrite !app_nil_r; auto.
Qed.

Section CallLog.
Variables (cs : list Call) (u : Used.t) (r : MutantResult.t).

Lemma pairings_recycle : pairings (cs ++ [Call_recycle u]) = pairings cs.
Proof. unfold pairings. rewrite omap_app. apply app_nil_r. Qed.
Lemma runMutants_recycle : runMutants (cs ++ [Call_recycle u]) = runMutants cs.
Proof. unfold runMutants. rewrite omap_app. apply app_nil_r. Qed.
Lemma recycles_recycle : recycles (cs ++ [Call_recycle u]) = recycles cs ++ [u].
Proof. unfold recycles. rewrite omap_app. reflexivity. Qed.
Lemma tested_recycle : tested (cs ++ [Call_recycle u]) = tested cs.
Proof. unfold tested. rewrite omap_app. apply app_nil_r. Qed.

Lemma pairings_tested : pairings (cs ++ [Call_onMutantTested r]) = pairings cs.
Proof. unfold pairings. rewrite omap_app. apply app_nil_r. Qed.
Lemma runMutants_tested : runMutants (cs ++ [Call_onMutantTested r]) = runMutants cs.
Proof. unfold runMutants. rewrite omap_app. apply app_nil_r. Qed.
Lemma recycles_tested : recycles (cs ++ [Call_onMutantTested r]) = recycles cs.
Proof. unfold recycles. rewrite omap_app. apply app_nil_r. Qed.
Lemma tested_tested : tested (cs ++ [Call_onMutantTested r]) = tested cs ++ [r].
Proof. unfold tested. rewrite omap_app. reflexivity. Qed.

Lemma quiet_recycle : quiet cs -> quiet (cs ++ [Call_recycle u]).
Proof. apply quiet_snoc. exact I. Qed.
Lemma quiet_tested : quiet cs -> quiet (cs ++ [Call_onMutantTested r]).
Proof. apply quiet_snoc. exact I. Qed.
End CallLog.

Create Rewrite HintDb calls.

#[local] Hint Rewrite pairings_pair_calls runMutants_pair_calls recycles_pair_calls
  tested_pair_calls pairings_closing runMutants_closing recycles_closing
  tested_closing pairings_recycle runMutants_recycle recycles_recycle
  tested_recycle pairings_tested runMutants_tested recycles_tested
  tested_tested : calls.

(** ** The invariant holds in every state of a run *)

Lemma Forall_wf_snoc ac a b :
  Forall promise_wf ac -> Forall promise_wf (ac ++ [paired a b]).
Proof. intros H. apply Forall_app; split; [assumption|]. repeat constructor. apply paired_wf. Qed.

Lemma pairs_snoc (rs : list Used.t) ac ps a b :
  map used_key rs ++ map promise_key ac ≡ₚ map pairing_key ps ->
  map used_key rs ++ map promise_key (ac ++ [paired a b])
  ≡ₚ map pairing_key (ps ++ [(a, b)]).
Proof.
  intros H. rewrite !map_app. simpl. rewrite paired_key, app_assoc, H. reflexivity.
Qed.

Lemma pairs_fulfil (rs : list Used.t) ac ps i p u :
  ac !! i = Some p -> used_key u = promise_key p ->
  map used_key rs ++ map promise_key ac ≡ₚ ps ->
  map used_key (rs ++ [u]) ++ map promise_key (delete i ac) ≡ₚ ps.
Proof.
  intros Hi Hu <-. rewrite (delete_Permutation ac i p Hi) at 2.
  rewrite map_app. simpl. rewrite Hu, <- app_assoc. reflexivity.
Qed.

Lemma runs_snoc rm ps a b :
  rm = List.filter needsRun ps ->
  rm ++ List.filter needsRun [(a, b)] = List.filter needsRun (ps ++ [(a, b)]).
Proof. intros ->. symmetry. apply List.filter_app. Qed.

Create HintDb pipeline.

#[local] Hint Resolve Forall_wf_snoc pairs_snoc pairs_fulfil runs_snoc quiet_pair_calls
  quiet_recycle quiet_tested snoc_not_nil Forall_delete : pipeline.

Ltac inv_auto :=
  simpl; autorewrite with calls; first
    [ done
    | solve [ eauto with pipeline ]
    | solve [ rewrite ?map_app; simpl; congruence ]
    | idtac ].

Ltac inv_frame HI st :=
  destruct HI; destruct st; simpl in *; subst; constructor; simpl;
  try done; try tauto.

Lemma Inv_init : Inv init.
Proof. constructor; simpl; try done. by left. Qed.

Lemma Inv_merged_next b st :
  Inv st -> settled st = Pending -> recycleObserver st = true -> Inv (merged_next b st).
Proof.
  intros [Hwf Ht Hr Hp Hrun Hz Ho He Hs] Hpend Hobs.
  destruct st as [ro ms ss mb sb zc ac co se ca]; simpl in *. subst se ro.
  rewrite merged_next_mk by assumption.
  destruct zc; [by constructor|].
  destruct mb as [|a mb']; constructor; inv_auto.
  all: try (destruct He as [?| ->]; [discriminate|]).
  all: inv_auto.
  destruct Hs; eauto with pipeline.
Qed.

Lemma Inv_mutant_next a st : Inv st -> settled st = Pending -> Inv (mutant_next a st).
Proof.
  intros [Hwf Ht Hr Hp Hrun Hz Ho He Hs] Hpend.
  destruct st as [ro ms ss mb sb zc ac co se ca]; simpl in *. subst se.
  rewrite mutant_next_mk by assumption.
  destruct ms; [by constructor|].
  destruct sb as [|b sb']; constructor; inv_auto.
  all: try (destruct He as [-> | ?]; [|discriminate]).
  all: inv_auto.
  - intros Hro. destruct (Ho Hro); discriminate.
  - destruct Hs; eauto with pipeline.
Qed.

Lemma Inv_mutants_complete st : Inv st -> settled st = Pending -> Inv (mutants_complete st).
Proof.
  intros [Hwf Ht Hr Hp Hrun Hz Ho He Hs] Hpend.
  destruct st as [ro ms ss mb sb zc ac co se ca]; simpl in *. subst se.
  unfold mutants_complete; simpl. destruct ms; [by constructor|].
  simpl in Hz. subst zc. destruct Hs as [Hq _].
  destruct mb as [|a mb']; simpl.
  - unfold zip_complete, flatMap_checkComplete; simpl.
    destruct ac as [|p ac'].
    + unfold set_zipCompleted; simpl. rewrite toArray_complete_mk.
      constructor; inv_auto. eauto 10.
    + constructor; inv_auto.
  - constructor; inv_auto.
Qed.

Lemma Inv_promise_fulfil i runResult st :
  Inv st -> settled st = Pending -> Inv (promise_fulfil i runResult st).
Proof.
  intros HI Hpend. pose proof HI as [Hwf Ht Hr Hp Hrun Hz Ho He Hs].
  destruct (active st !! i) as [p|] eqn:Hi;
    [|unfold promise_fulfil; rewrite Hi; assumption].
  assert (Hwfp : promise_wf p).
  { eapply Forall_forall in Hwf; [eassumption|]. eapply list_elem_of_lookup_2; eassumption. }
  pose proof (fulfilment_key p runResult Hwfp) as Hkey.
  destruct (recycleObserver st) eqn:Hobs.
  2:{ destruct (Ho eq_refl) as [_ Hac]. rewrite Hac in Hi. discriminate. }
  destruct st as [ro ms ss mb sb zc ac co se ca]; simpl in *. subst se ro.
  clear HI. rewrite (promise_fulfil_mk i runResult p) by assumption. cbv zeta.
  destruct Hs as [Hq Hza].
  assert (Hdelwf : Forall promise_wf (delete i ac)) by by apply Forall_delete.
  assert (Hdelp : map used_key (recycles ca ++ [fulfilment p runResult])
                  ++ map promise_key (delete i ac) ≡ₚ map pairing_key (pairings ca))
    by (eapply pairs_fulfil; eauto).
  destruct zc; [destruct (delete i ac) as [|q ac'] eqn:Hdel
               |destruct mb as [|a mb']; [|destruct He as [?| ->]; [discriminate|]]];
    constructor; inv_auto.
  repeat split; eauto 10 with pipeline.
Qed.

Lemma Inv_step st ev : Inv st -> Inv (step st ev).
Proof.
  intros HI. unfold step. destruct (settled st) eqn:Hpend; [|assumption..].
  destruct ev.
  - inv_frame HI st.
  - by apply Inv_mutant_next.
  - by apply Inv_mutants_complete.
  - unfold mutants_error. destruct (mutantsStopped st); [assumption|].
    inv_frame HI st.
  - unfold sandbox_next. destruct (recycleObserver st) eqn:Hro; [|assumption].
    destruct (sandboxesStopped st); [assumption|]. by apply Inv_merged_next.
  - unfold sandboxes_complete. destruct (recycleObserver st); [|assumption].
    inv_frame HI st.
  - unfold sandboxes_error.
    destruct (recycleObserver st && negb (sandboxesStopped st) && negb (zipCompleted st));
      [|assumption].
    inv_frame HI st.
  - by apply Inv_promise_fulfil.
  - unfold promise_reject. destruct (active st !! i) as [[]|]; try assumption.
    inv_frame HI st.
Qed.

Lemma Inv_foldl evs st : Inv st -> Inv (foldl step st evs).
Proof.
  revert st. induction evs as [|ev evs IH]; intros st HI; simpl; [assumption|].
  apply IH, Inv_step, HI.
Qed.

Lemma Inv_run evs : Inv (runInsideSandboxes evs).
Proof. apply Inv_foldl, Inv_init. Qed.

(** ** The state accounts for the events received *)

Lemma mutantsOf_snoc evs ev :
  mutantsOf (evs ++ [ev])
  = if mutantsClosed evs then mutantsOf evs
    else mutantsOf evs ++ match ev with Mutant_next a => [a] | _ => [] end.
Proof.
  induction evs as [|e evs IH]; simpl.
  - destruct ev; reflexivity.
  - destruct e; simpl; rewrite ?IH; try reflexivity;
      destruct (mutantsClosed evs); reflexivity.
Qed.

Lemma mutantsClosed_snoc evs ev :
  mutantsClosed (evs ++ [ev])
  = mutantsClosed evs
    || match ev with Mutants_complete | Mutants_error => true | _ => false end.
Proof.
  induction evs as [|e evs IH]; simpl.
  - destruct ev; reflexivity.
  - destruct e; simpl; rewrite ?IH; reflexivity.
Qed.

Lemma poolOf_snoc evs ev :
  poolOf (evs ++ [ev])
  = poolOf evs ++ match ev with Sandbox_next b => [b] | _ => [] end.
Proof. unfold poolOf. rewrite omap_app. destruct ev; reflexivity. Qed.

Lemma merged_next_held b st :
  mutantBuffer st = [] \/ sandboxBuffer st = [] ->
  held (merged_next b st) ⊆+ held st ++ [b].
Proof.
  intros He. destruct st as [ro ms ss mb sb zc ac co se ca]; simpl in *.
  rewrite merged_next_mk by assumption. unfold held.
  destruct zc; simpl.
  - apply submseteq_inserts_r. reflexivity.
  - destruct mb as [|a mb']; simpl.
    + rewrite app_assoc. reflexivity.
    + destruct He as [?| ->]; [discriminate|].
      rewrite map_app. simpl. rewrite paired_sandbox, !app_nil_r. reflexivity.
Qed.

Lemma merged_next_seen b st :
  mutantBuffer st = [] \/ sandboxBuffer st = [] ->
  seen (merged_next b st) = seen st.
Proof.
  intros He. destruct st as [ro ms ss mb sb zc ac co se ca]; simpl in *.
  rewrite merged_next_mk by assumption. unfold seen.
  destruct zc; simpl; [reflexivity|].
  destruct mb as [|a mb']; simpl; [reflexivity|].
  rewrite pairings_pair_calls, map_app, <- app_assoc. reflexivity.
Qed.

Lemma merged_next_frame b st :
  mutantBuffer st = [] \/ sandboxBuffer st = [] ->
  let st' := merged_next b st in
  mutantsStopped st' = mutantsStopped st /\ settled st' = settled st /\
  recycleObserver st' = recycleObserver st /\ collected st' = collected st /\
  exists more, active st' = active st ++ more.
Proof.
  intros He. destruct st as [ro ms ss mb sb zc ac co se ca]; simpl in *.
  rewrite merged_next_mk by assumption.
  destruct zc; simpl; [|destruct mb; simpl]; repeat split; eauto using app_nil_r.
  all: exists []; symmetry; apply app_nil_r.
Qed.

Lemma flatMap_checkComplete_frame st :
  let st' := flatMap_checkComplete st in
  held st' = held st /\ seen st' = seen st /\ mutantsStopped st' = mutantsStopped st /\
  active st' = active st /\ collected st' = collected st /\
  mutantBuffer st' = mutantBuffer st /\ sandboxBuffer st' = sandboxBuffer st.
Proof.
  destruct st as [ro ms ss mb sb zc ac co se ca].
  unfold flatMap_checkComplete. cbn [zipCompleted active].
  destruct zc, ac; rewrite ?toArray_complete_mk; unfold held, seen; simpl;
    rewrite ?pairings_closing; repeat split; reflexivity.
Qed.

Lemma mutants_complete_frame st :
  let st' := mutants_complete st in
  held st' = held st /\ seen st' = seen st /\ mutantsStopped st' = true.
Proof.
  destruct st as [ro ms ss mb sb zc ac co se ca].
  unfold mutants_complete. cbn [mutantsStopped].
  destruct ms; [done|].
  unfold set_mutantsStopped. cbn [mutantBuffer].
  destruct mb; [|done].
  unfold zip_complete, set_zipCompleted, flatMap_checkComplete. simpl.
  destruct ac; [|done]. rewrite toArray_complete_mk. unfold held, seen. simpl.
  rewrite pairings_closing. done.
Qed.

Lemma promise_fulfil_frame i runResult st :
  Inv st -> settled st = Pending ->
  let st' := promise_fulfil i runResult st in
  mutantsStopped st' = mutantsStopped st /\ seen st' = seen st /\ held st' ⊆+ held st.
Proof.
  intros HI Hpend. pose proof HI as [Hwf _ _ _ _ _ Ho He _].
  unfold promise_fulfil. destruct (active st !! i) as [p|] eqn:Hi; [|done].
  assert (Hwfp : promise_wf p).
  { eapply Forall_forall in Hwf; [eassumption|]. eapply list_elem_of_lookup_2; eassumption. }
  pose proof (fulfilment_key p runResult Hwfp) as Hkey.
  set (u := fulfilment p runResult) in *.
  unfold recycle. destruct (recycleObserver st) eqn:Hobs; [|done].
  cbv zeta.
  set (st1 := log (Call_recycle u) st).
  assert (He1 : mutantBuffer st1 = [] \/ sandboxBuffer st1 = []) by exact He.
  destruct (merged_next_frame (Used.sandbox u) st1 He1) as (Hst' & _ & _ & _ & more & Hac).
  pose proof (merged_next_seen (Used.sandbox u) st1 He1) as Hse'.
  pose proof (merged_next_held (Used.sandbox u) st1 He1) as Hh'.
  set (m := merged_next (Used.sandbox u) st1) in *.
  match goal with |- context [flatMap_checkComplete ?X] =>
    destruct (flatMap_checkComplete_frame X) as (-> & -> & -> & _) end.
  unfold held, seen in *. simpl.
  rewrite pairings_tested. split; [exact Hst'|]. split.
  - rewrite Hse'. unfold st1. simpl. rewrite pairings_recycle. reflexivity.
  - assert (Hi' : active m !! i = Some p).
    { rewrite Hac. apply lookup_app_l_Some. exact Hi. }
    assert (Hperm : map promise_sandbox (active m) ++ sandboxBuffer m
                    ≡ₚ promise_sandbox p
                       :: (map promise_sandbox (delete i (active m)) ++ sandboxBuffer m)).
    { rewrite (delete_Permutation _ _ _ Hi') at 1. reflexivity. }
    apply (submseteq_app_inv_l _ _ [promise_sandbox p]). simpl.
    rewrite <- Hperm.
    etrans; [exact Hh'|]. unfold st1; simpl.
    replace (Used.sandbox u) with (promise_sandbox p)
      by (unfold promise_sandbox; rewrite <- Hkey; reflexivity).
    simpl. rewrite <- Permutation_cons_append. reflexivity.
Qed.

Lemma Link_frozen evs ev st :
  Inv st -> settled st <> Pending -> Link evs st -> Link (evs ++ [ev]) st.
Proof.
  intros HI Hset [Hst Hse Hh]. constructor.
  - intros Hrej. rewrite mutantsClosed_snoc, <- (Hst Hrej).
    destruct HI as [_ _ _ _ _ Hz _ _ Hs]. destruct (settled st); try done.
    destruct Hs as (_ & Hzc & _). rewrite Hzc in Hz.
    symmetry in Hz. apply andb_prop in Hz as [-> _]. reflexivity.
  - intros Hrej. rewrite mutantsOf_snoc, <- (Hst Hrej), (Hse Hrej).
    destruct HI as [_ _ _ _ _ Hz _ _ Hs]. destruct (settled st); try done.
    destruct Hs as (_ & Hzc & _). rewrite Hzc in Hz.
    symmetry in Hz. apply andb_prop in Hz as [-> _]. reflexivity.
  - rewrite poolOf_snoc. apply submseteq_inserts_r. assumption.
Qed.

Lemma Link_same evs ev st :
  match ev with
  | Subscribe_supply | Sandboxes_complete | Sandboxes_error | Promise_reject _ => True
  | _ => False
  end ->
  Link evs st -> Link (evs ++ [ev]) st.
Proof.
  intros Hev [Hst Hse Hh].
  constructor; rewrite ?mutantsOf_snoc, ?mutantsClosed_snoc, ?poolOf_snoc;
    destruct ev; try done; rewrite ?app_nil_r, ?orb_false_r; try done.
  all: intros Hrej; rewrite (Hse Hrej); destruct (mutantsClosed evs); reflexivity.
Qed.

Lemma Link_reframe evs st st' :
  mutantsStopped st' = mutantsStopped st -> seen st' = seen st -> held st' = held st ->
  (settled st' <> Rejected -> settled st <> Rejected) ->
  Link evs st -> Link evs st'.
Proof.
  intros E1 E2 E3 Hs [Hst Hse Hh]. constructor; rewrite ?E1, ?E2, ?E3; auto.
Qed.

Lemma Link_closed evs ev st :
  mutantsClosed evs = true -> Link evs st -> Link (evs ++ [ev]) st.
Proof.
  intros Hc [Hst Hse Hh].
  constructor; rewrite ?mutantsOf_snoc, ?mutantsClosed_snoc, ?poolOf_snoc, ?Hc.
  - intros Hrej. rewrite (Hst Hrej), Hc. reflexivity.
  - assumption.
  - by apply submseteq_inserts_r.
Qed.

Lemma Link_reject evs ev st : Link evs st -> Link (evs ++ [ev]) (reject st).
Proof.
  intros [Hst Hse Hh]. constructor; simpl; try done.
  rewrite poolOf_snoc. by apply submseteq_inserts_r.
Qed.

Lemma Link_mutant_next evs a st :
  Inv st -> settled st = Pending -> Link evs st ->
  Link (evs ++ [Mutant_next a]) (mutant_next a st).
Proof.
  intros HI Hpend [Hst Hse Hh].
  pose proof HI as [_ _ _ _ _ _ _ He _].
  rewrite Hpend in Hst, Hse. specialize (Hst ltac:(done)). specialize (Hse ltac:(done)).
  destruct st as [ro ms ss mb sb zc ac co se ca]; simpl in *.
  rewrite mutant_next_mk by assumption.
  unfold held, seen in *; simpl in *.
  constructor; rewrite ?mutantsOf_snoc, ?mutantsClosed_snoc, ?poolOf_snoc, ?app_nil_r, <- ?Hst;
    unfold held, seen; destruct ms; simpl; try done.
  - destruct sb; done.
  - intros _. rewrite <- Hse. destruct sb as [|b sb']; simpl.
    + by rewrite app_assoc.
    + destruct He as [-> | ?]; [|discriminate].
      rewrite pairings_pair_calls, map_app, !app_nil_r. reflexivity.
  - destruct sb as [|b sb']; simpl; [done|].
    rewrite map_app; simpl. rewrite paired_sandbox, <- app_assoc. assumption.
Qed.

Lemma Link_mutants_complete evs st :
  Inv st -> settled st = Pending -> Link evs st ->
  Link (evs ++ [Mutants_complete]) (mutants_complete st).
Proof.
  intros HI Hpend [Hst Hse Hh].
  rewrite Hpend in Hst, Hse. specialize (Hst ltac:(done)). specialize (Hse ltac:(done)).
  destruct (mutants_complete_frame st) as (Hh' & Hse' & Hst').
  constructor; rewrite ?mutantsOf_snoc, ?mutantsClosed_snoc, ?poolOf_snoc, ?app_nil_r.
  - intros _. rewrite Hst'. symmetry. apply orb_true_r.
  - intros _. rewrite Hse', Hse. destruct (mutantsClosed evs); reflexivity.
  - rewrite Hh'. assumption.
Qed.

Lemma Link_sandbox_next evs b st :
  Inv st -> settled st = Pending -> Link evs st ->
  Link (evs ++ [Sandbox_next b]) (sandbox_next b st).
Proof.
  intros HI Hpend [Hst Hse Hh].
  pose proof HI as [_ _ _ _ _ _ _ He _].
  rewrite Hpend in Hst, Hse. specialize (Hst ltac:(done)). specialize (Hse ltac:(done)).
  destruct (merged_next_frame b st He) as (Hst' & _).
  pose proof (merged_next_seen b st He) as Hse'.
  pose proof (merged_next_held b st He) as Hh'.
  unfold sandbox_next.
  constructor; rewrite ?mutantsOf_snoc, ?mutantsClosed_snoc, ?poolOf_snoc, ?app_nil_r,
    ?orb_false_r; destruct (recycleObserver st && negb (sandboxesStopped st)).
  - intros _. congruence.
  - done.
  - intros _. rewrite Hse', Hse. destruct (mutantsClosed evs); reflexivity.
  - intros _. rewrite Hse. destruct (mutantsClosed evs); reflexivity.
  - etrans; [exact Hh'|]. by apply submseteq_skips_r.
  - by apply submseteq_inserts_r.
Qed.

Lemma Link_promise_fulfil evs i runResult st :
  Inv st -> settled st = Pending -> Link evs st ->
  Link (evs ++ [Promise_fulfil i runResult]) (promise_fulfil i runResult st).
Proof.
  intros HI Hpend [Hst Hse Hh].
  rewrite Hpend in Hst, Hse. specialize (Hst ltac:(done)). specialize (Hse ltac:(done)).
  destruct (promise_fulfil_frame i runResult st HI Hpend) as (Hst' & Hse' & Hh').
  constructor; rewrite ?mutantsOf_snoc, ?mutantsClosed_snoc, ?poolOf_snoc, ?app_nil_r,
    ?orb_false_r.
  - intros _. congruence.
  - intros _. rewrite Hse', Hse. destruct (mutantsClosed evs); reflexivity.
  - etrans; [exact Hh'|]. assumption.
Qed.

Lemma Link_step evs ev st :
  Inv st -> Link evs st -> Link (evs ++ [ev]) (step st ev).
Proof.
  intros HI HL. unfold step. destruct (settled st) eqn:Hpend.
  2,3: apply Link_frozen; [assumption|congruence|assumption].
  destruct ev.
  - eapply Link_reframe; [..|apply Link_same; [exact I|eassumption]]; try done.
  - by apply Link_mutant_next.
  - by apply Link_mutants_complete.
  - unfold mutants_error. destruct (mutantsStopped st) eqn:E.
    + apply Link_closed; [|assumption]. destruct HL as [Hst _ _].
      rewrite <- Hst, E; [reflexivity|congruence].
    + by apply Link_reject.
  - by apply Link_sandbox_next.
  - unfold sandboxes_complete. destruct (recycleObserver st).
    + eapply Link_reframe; [..|apply Link_same; [exact I|eassumption]]; try done.
    + by apply Link_same.
  - unfold sandboxes_error.
    destruct (recycleObserver st && negb (sandboxesStopped st) && negb (zipCompleted st)).
    + by apply Link_reject.
    + by apply Link_same.
  - by apply Link_promise_fulfil.
  - unfold promise_reject. destruct (active st !! i) as [[]|].
    + by apply Link_same.
    + by apply Link_reject.
    + by apply Link_same.
Qed.

Lemma Link_run evs : Link evs (runInsideSandboxes evs).
Proof.
  induction evs as [|ev evs IH] using rev_ind.
  - constructor; simpl; try done.
  - unfold runInsideSandboxes. rewrite foldl_snoc. apply Link_step; [apply Inv_run|exact IH].
Qed.

(** ** No sandbox leaves circulation *)

Lemma supplyOf_snoc evs ev : supplyOf (evs ++ [ev]) = supply_step (supplyOf evs) ev.
Proof. apply foldl_snoc. Qed.

Lemma Conserved_frozen evs ev st :
  settled st <> Pending -> Conserved (evs ++ [ev]) st.
Proof. intros Hset. constructor; intros Hpend; destruct (Hset Hpend). Qed.

Lemma Conserved_intro evs st s :
  supplyOf evs = s ->
  (settled st = Pending ->
   recycleObserver st = sup_subscribed s
   /\ sandboxesStopped st = sup_closed s
   /\ (zipCompleted st = false -> held st ≡ₚ sup_sandboxes s)) ->
  Conserved evs st.
Proof. intros <- H. constructor; intros Hpend; apply H; exact Hpend. Qed.

Lemma Conserved_step evs ev st :
  Inv st -> Conserved evs st -> Conserved (evs ++ [ev]) (step st ev).
Proof.
  intros HI HC. pose proof HI as [Hwf _ _ _ _ _ Ho He _].
  unfold step. destruct (settled st) eqn:Hpend.
  2,3: apply Conserved_frozen; rewrite Hpend; discriminate.
  destruct HC as [Hsub Hcl Hheld].
  specialize (Hsub Hpend). specialize (Hcl Hpend). specialize (Hheld Hpend).
  unfold supplied in *.
  apply (Conserved_intro _ _ _ (supplyOf_snoc evs ev)).
  destruct (supplyOf evs) as [sub cl sbs]. simpl in Hsub, Hcl, Hheld.
  unfold held in *.
  destruct st as [ro ms ss mb sb zc ac co se ca]; simpl in *. subst se ro ss.
  clear HI.
  destruct ev; simpl.
  - auto.
  - rewrite mutant_next_mk by assumption.
    destruct ms; [|destruct sb as [|b sb']]; simpl; auto.
    intros _. repeat split. intros Hzc. rewrite <- (Hheld Hzc), map_app. simpl.
    rewrite paired_sandbox, <- app_assoc. reflexivity.
  - rewrite mutants_complete_mk.
    destruct ms; [|destruct mb, ac]; simpl; auto; try discriminate.
    all: intros _; repeat split; discriminate.
  - unfold mutants_error. simpl. destruct ms; simpl; auto; discriminate.
  - unfold sandbox_next. simpl. destruct (sub && negb cl); simpl; [|auto].
    rewrite merged_next_mk by assumption.
    destruct zc; [|destruct mb as [|a mb']]; simpl; auto.
    + intros _. repeat split; discriminate.
    + intros _. repeat split. intros _.
      rewrite <- (Hheld eq_refl), app_assoc. reflexivity.
    + intros _. repeat split. intros _. destruct He as [?| ->]; [discriminate|].
      rewrite <- (Hheld eq_refl), map_app. simpl.
      rewrite paired_sandbox, !app_nil_r. reflexivity.
  - unfold sandboxes_complete. simpl. destruct sub; simpl; auto.
  - unfold sandboxes_error. simpl.
    destruct (sub && negb cl && negb zc); simpl; auto; discriminate.
  - destruct (ac !! i) as [p|] eqn:Hi.
    2:{ unfold promise_fulfil. simpl. rewrite Hi. simpl. auto. }
    destruct sub.
    2:{ destruct (Ho eq_refl) as [_ Hac]. rewrite Hac in Hi. discriminate. }
    assert (Hwfp : promise_wf p).
    { eapply Forall_forall in Hwf; [exact Hwf|]. eapply list_elem_of_lookup_2. exact Hi. }
    assert (Hsb : Used.sandbox (fulfilment p runResult) = promise_sandbox p).
    { unfold promise_sandbox. rewrite <- (fulfilment_key p runResult Hwfp). reflexivity. }
    assert (Hperm : map promise_sandbox ac
                    ≡ₚ map promise_sandbox (delete i ac) ++ [promise_sandbox p]).
    { rewrite (delete_Permutation ac i p Hi) at 1. simpl.
      apply Permutation_cons_append. }
    rewrite (promise_fulfil_mk i runResult p) by assumption. cbv zeta.
    destruct zc; [destruct (delete i ac) as [|q ac'] eqn:Hdel|destruct mb as [|a mb']];
      simpl; try discriminate.
    + intros _. repeat split; discriminate.
    + intros _. repeat split. intros _.
      rewrite <- (Hheld eq_refl), Hsb, Hperm, <- !app_assoc.
      apply Permutation_app_head. apply Permutation_app_comm.
    + intros _. repeat split. intros _. destruct He as [?| ->]; [discriminate|].
      rewrite <- (Hheld eq_refl), map_app. simpl.
      rewrite paired_sandbox, Hsb, !app_nil_r, Hperm. reflexivity.
  - unfold promise_reject. simpl.
    destruct (ac !! i) as [[]|]; simpl; auto; discriminate.
Qed.

Lemma Conserved_run evs : Conserved evs (runInsideSandboxes evs).
Proof.
  induction evs as [|ev evs IH] using rev_ind.
  - constructor; reflexivity.
  - unfold runInsideSandboxes. rewrite foldl_snoc.
    apply Conserved_step; [apply Inv_run|exact IH].
Qed.

(** While the run is pending, a sandbox the pool handed over is still in
    circulation. *)
Lemma supplied_circulating evs :
  settled (runInsideSandboxes evs) = Pending -> supplied evs <> [] ->
  0 < circulating (runInsideSandboxes evs).
Proof.
  intros Hpend Hsup. pose proof (Inv_run evs) as [_ _ _ _ _ _ _ _ Hs].
  pose proof (cons_held _ _ (Conserved_run evs) Hpend) as Hheld.
  rewrite Hpend in Hs. destruct Hs as [_ Hza]. unfold circulating.
  destruct (zipCompleted (runInsideSandboxes evs)).
  - specialize (Hza eq_refl). unfold held. rewrite length_app, length_map.
    destruct (active (runInsideSandboxes evs)); [congruence|simpl; lia].
  - rewrite (Permutation_length (Hheld eq_refl)).
    destruct (supplied evs); [congruence|simpl; lia].
Qed.

(** ** Once the mutants are exhausted, the run resolves *)

Lemma circulating_eq st :
  circulating st = length (active st) + length (sandboxBuffer st).
Proof. unfold circulating, held. rewrite length_app, length_map. reflexivity. Qed.

Lemma drain choices : forall st,
  Inv st -> settled st = Pending -> mutantsStopped st = true ->
  0 < circulating st -> length choices = outstanding st ->
  exists rs, settled (foldl step st (schedule st choices)) = Resolved rs.
Proof.
  induction choices as [|[k runResult] choices IH]; intros st HI Hpend Hstop Hcirc Hlen.
  - exfalso. destruct HI as [_ _ _ _ _ Hz _ _ Hs]. rewrite Hpend in Hs.
    destruct Hs as [_ Hza]. unfold outstanding in Hlen. simpl in Hlen.
    destruct (mutantBuffer st), (active st); simpl in *; try lia.
    rewrite Hstop in Hz. apply Hza; [exact Hz|reflexivity].
  - cbn [schedule foldl].
    set (i := k mod length (active st)).
    pose proof (Inv_step st (Promise_fulfil i runResult) HI) as HI'.
    assert (Hac : active st <> []).
    { destruct HI as [_ _ _ _ _ Hz _ He Hs]. rewrite Hpend in Hs. destruct Hs as [_ Hza].
      rewrite circulating_eq in Hcirc. rewrite Hstop in Hz. simpl in Hz.
      intros Hnil. destruct (zipCompleted st); [by apply Hza|].
      destruct (mutantBuffer st); [discriminate|].
      destruct He as [?|Hsb]; [discriminate|]. rewrite Hnil, Hsb in Hcirc. simpl in Hcirc. lia. }
    assert (Hlt : i < length (active st)).
    { apply Nat.mod_upper_bound. destruct (active st); [congruence|discriminate]. }
    destruct (lookup_lt_is_Some_2 _ _ Hlt) as [p Hi].
    assert (Hstep : step st (Promise_fulfil i runResult) = promise_fulfil i runResult st)
      by (unfold step; rewrite Hpend; reflexivity).
    rewrite !Hstep in *. revert HI'.
    destruct HI as [_ _ _ _ _ Hz Ho He Hs]. rewrite Hpend in Hs. destruct Hs as [_ Hza].
    pose proof (length_delete (active st) i (ex_intro _ p Hi)) as Hdel.
    clearbody i. clear Hac Hcirc Hstep.
    destruct st as [ro ms ss mb sb zc ac co se ca].
    unfold outstanding in *. simpl in *. subst ms se.
    destruct ro.
    2:{ destruct (Ho eq_refl) as [_ Hac]. rewrite Hac in Hi. discriminate. }
    rewrite (promise_fulfil_mk i runResult p) by done. simpl.
    destruct zc.
    + symmetry in Hz. apply bool_decide_eq_true in Hz. subst mb.
      destruct (delete i ac) as [|q ac'']; intros HI'.
      * destruct choices; [|simpl in *; lia]. simpl. eauto.
      * apply IH; simpl; try done; rewrite ?circulating_eq; unfold outstanding;
          simpl in *; lia.
    + destruct mb as [|a mb']; [discriminate|]. intros HI'.
      apply IH; try done; rewrite ?circulating_eq; unfold outstanding; simpl in *;
        rewrite ?length_app; simpl; lia.
Qed.

(** ** Delivering a verdict *)

Lemma needsRun_spec a b :
  needsRun (a, b) = true <-> ~ transformFailed a /\ ~ notCovered a /\ ~ noChange a.
Proof.
  unfold needsRun, earlyResult, transformFailed, notCovered, noChange.
  destruct (truthy _); simpl; [split; [discriminate|tauto]|].
  destruct (TestableMutant.selectedTests _); simpl; [split; [discriminate|tauto]|].
  destruct (TranspiledMutant.changedAnyTranspiledFiles a); simpl.
  - split; [|reflexivity]. intros _. repeat split; discriminate.
  - split; [discriminate|tauto].
Qed.

Lemma paired_needsRun a b :
  needsRun (a, b) = true ->
  exists k, paired a b = RunMutant_then b a k /\
    forall runResult,
      k runResult = Used.mk b (collectMutantResult (TranspiledMutant.mutant a) runResult).
Proof.
  unfold needsRun, paired, createTuple, earlyResult, runInSandbox.
  repeat case_match; simplify_eq; simpl; try discriminate.
  intros _. eexists. split; reflexivity.
Qed.

(** Whatever promise delivers its value, the pipeline first recycles the
    sandbox, then reports the verdict and stores it; the run does not
    reject. *)
Lemma promise_fulfil_delivers i runResult p st :
  Inv st -> settled st = Pending -> active st !! i = Some p ->
  let used := fulfilment p runResult in
  let st' := promise_fulfil i runResult st in
  settled st' <> Rejected /\
  collected st' = collected st ++ [Used.result used] /\
  exists more,
    calls st' = calls st ++ Call_recycle used :: more /\
    recycles more = [] /\ tested more = [Used.result used].
Proof.
  intros HI Hpend Hi. pose proof HI as [_ _ _ _ _ _ Ho He _].
  destruct (recycleObserver st) eqn:Hobs.
  2:{ destruct (Ho eq_refl) as [_ Hac]. rewrite Hac in Hi. discriminate. }
  destruct st as [ro ms ss mb sb zc ac co se ca]; simpl in *. subst se ro.
  rewrite (promise_fulfil_mk i runResult p) by assumption. cbv zeta.
  destruct zc; [destruct (delete i ac)|destruct mb as [|a mb']]; simpl;
    (split; [discriminate|]); (split; [reflexivity|]);
    rewrite <- ?app_assoc; simpl; eexists; (split; [reflexivity|]).
  - unfold recycles, tested. done.
  - done.
  - done.
  - unfold recycles, tested, pair_calls. simpl. destruct (needsRun _); done.
Qed.

(** * The classifier *)

(** C2: early classification is an ordered, first-match-wins policy.  A
    failed transform gives TranspileError with no tests; otherwise an empty
    selection of tests gives NoCoverage with no tests; otherwise a transform
    that changed no transpiled file gives Survived with no tests.  In each of
    the three cases [runInSandbox] resolves at once, the pipeline logs no call
    of [runMutant] for the pair, and in no run is [runMutant] ever called for
    a mutant that meets one of the three checks. *)
Theorem earlyResult_first_match (a : TranspiledMutant.t) (b : Sandbox) :
  (transformFailed a ->
   earlyResult (a, b) = (a, b, Some (verdict a MutantStatus.TranspileError [])))
  /\ (~ transformFailed a -> notCovered a ->
      earlyResult (a, b) = (a, b, Some (verdict a MutantStatus.NoCoverage [])))
  /\ (~ transformFailed a -> ~ notCovered a -> noChange a ->
      earlyResult (a, b) = (a, b, Some (verdict a MutantStatus.Survived [])))
  /\ (transformFailed a \/ notCovered a \/ noChange a ->
      invokesRunMutant (runInSandbox (earlyResult (a, b))) = false
      /\ forall st, runMutants (calls (zip_emit a b st)) = runMutants (calls st))
  /\ (forall evs,
        In (a, b) (runMutants (calls (runInsideSandboxes evs))) ->
        ~ transformFailed a /\ ~ notCovered a /\ ~ noChange a).
Proof.
  unfold transformFailed, notCovered, noChange, verdict.
  repeat apply conj.
  - intros Hf. unfold earlyResult. rewrite Hf. reflexivity.
  - intros Hf Hn. unfold earlyResult.
    destruct (truthy _); [congruence|]. rewrite Hn. reflexivity.
  - intros Hf Hn Hc. unfold earlyResult.
    destruct (truthy _); [congruence|].
    destruct (TestableMutant.selectedTests _); [congruence|]. rewrite Hc. reflexivity.
  - intros Hearly.
    assert (Hrun : needsRun (a, b) = false).
    { destruct (needsRun (a, b)) eqn:E; [|reflexivity].
      apply needsRun_spec in E. unfold transformFailed, notCovered, noChange in E. tauto. }
    split.
    + revert Hrun. unfold needsRun, runInSandbox. destruct (earlyResult (a, b)) as [[? ?] []];
        simpl; congruence.
    + intros st. destruct st. rewrite zip_emit_mk. simpl.
      rewrite runMutants_pair_calls. simpl. rewrite Hrun. apply app_nil_r.
  - intros evs Hin. rewrite (inv_runs _ (Inv_run evs)) in Hin.
    apply List.filter_In in Hin as [_ Hrun]. apply needsRun_spec in Hrun. exact Hrun.
Qed.

Lemma earlyResult_first_match_witness :
  transformFailed Sample.broken /\
  earlyResult (Sample.broken, Sample.sandbox0)
  = (Sample.broken, Sample.sandbox0,
     Some (verdict Sample.broken MutantStatus.TranspileError [])).
Proof.
  split; [reflexivity|].
  apply (proj1 (earlyResult_first_match Sample.broken Sample.sandbox0)). reflexivity.
Defined.

(** C3: when none of the three early checks matched, the sandbox runs the
    mutant and its answer decides the verdict: a timeout gives TimedOut, an
    error gives RuntimeError, a completed run in which an exercised test
    failed gives Killed, a completed run in which no exercised test failed
    gives Survived; in every case the tests of the verdict are the names of
    the tests that were not skipped, in their order. *)
Theorem collectMutantResult_mapping (a : TranspiledMutant.t) (b : Sandbox)
    (runResult : RunResult.t) :
  needsRun (a, b) = true ->
  let promise := runInSandbox (earlyResult (createTuple a b)) in
  let used := fulfilment promise (Some runResult) in
  let result := Used.result used in
  invokesRunMutant promise = true
  /\ Used.sandbox used = b
  /\ MutantResult.id result = mutantId a
  /\ (RunResult.status runResult = RunStatus.Timeout ->
      MutantResult.status result = MutantStatus.TimedOut)
  /\ (RunResult.status runResult = RunStatus.Error ->
      MutantResult.status result = MutantStatus.RuntimeError)
  /\ (RunResult.status runResult = RunStatus.Complete ->
      (exists t, In t (RunResult.tests runResult) /\ exercised t
                 /\ TestResult.status t = TestStatus.Failed) ->
      MutantResult.status result = MutantStatus.Killed)
  /\ (RunResult.status runResult = RunStatus.Complete ->
      (forall t, In t (RunResult.tests runResult) -> exercised t ->
                 TestResult.status t <> TestStatus.Failed) ->
      MutantResult.status result = MutantStatus.Survived)
  /\ MutantResult.testsRan result
     = map TestResult.name (filter exercised (RunResult.tests runResult)).
Proof.
  intros Hrun. destruct (paired_needsRun a b Hrun) as (k & Hp & Hk).
  unfold paired in Hp. cbv zeta. rewrite Hp. simpl. rewrite Hk. simpl.
  unfold collectMutantResult, mutantId.
  repeat apply conj; try reflexivity.
  - intros ->. reflexivity.
  - intros ->. reflexivity.
  - intros -> (t & Hin & _ & Hfail). simpl.
    replace (existsb _ _) with true; [reflexivity|].
    symmetry. apply existsb_exists. exists t. split; [assumption|].
    apply bool_decide_eq_true. assumption.
  - intros -> Hnone. simpl.
    replace (existsb _ _) with false; [reflexivity|].
    symmetry. apply not_true_is_false. intros Hex.
    apply existsb_exists in Hex as (t & Hin & Hfail).
    apply bool_decide_eq_true in Hfail.
    apply (Hnone t Hin); [|assumption]. unfold exercised. rewrite Hfail. discriminate.
Qed.

Lemma collectMutantResult_mapping_witness :
  needsRun (Sample.runnable, Sample.sandbox0) = true /\
  MutantResult.testsRan
    (Used.result
       (fulfilment
          (runInSandbox (earlyResult (createTuple Sample.runnable Sample.sandbox0)))
          (Some Sample.passing)))
  = ["adds"%string].
Proof.
  split; [reflexivity|].
  apply (collectMutantResult_mapping Sample.runnable Sample.sandbox0 Sample.passing).
  reflexivity.
Defined.

(** C6, as the code has it: a mutant with no selected test never reaches the
    sandbox; its verdict is NoCoverage when the transform did not fail,
    whether or not the transform changed a file, and TranspileError when the
    transform failed, because that check comes first. *)
Theorem notCovered_early (a : TranspiledMutant.t) (b : Sandbox) :
  notCovered a ->
  invokesRunMutant (runInSandbox (earlyResult (a, b))) = false
  /\ (~ transformFailed a ->
      earlyResult (a, b) = (a, b, Some (verdict a MutantStatus.NoCoverage [])))
  /\ (transformFailed a ->
      earlyResult (a, b) = (a, b, Some (verdict a MutantStatus.TranspileError []))).
Proof.
  unfold notCovered, transformFailed, verdict. intros Hn.
  unfold earlyResult. rewrite Hn. simpl.
  destruct (truthy _); simpl; repeat split; congruence.
Qed.

Lemma notCovered_early_witness :
  notCovered Sample.uncovered /\
  earlyResult (Sample.uncovered, Sample.sandbox0)
  = (Sample.uncovered, Sample.sandbox0,
     Some (verdict Sample.uncovered MutantStatus.NoCoverage [])).
Proof.
  split; [reflexivity|].
  apply (notCovered_early Sample.uncovered Sample.sandbox0); [reflexivity|].
  unfold transformFailed. simpl. discriminate.
Defined.

(** C6 as stated fails: a mutant with no selected test whose transform failed
    is classified TranspileError, not NoCoverage. *)
Lemma notCovered_regardless_counterexample :
  ~ (forall a b, notCovered a ->
       (earlyResult (a, b)).2 = Some (verdict a MutantStatus.NoCoverage [])).
Proof.
  intros H. specialize (H Sample.broken_uncovered Sample.sandbox0 eq_refl).
  vm_compute in H. discriminate H.
Qed.

(** C10, as the code has it: [collectMutantResult] returns a verdict,
    without throwing, for every argument of the declared type: without a
    RunResult (null or undefined) the verdict is NoCoverage with no tests, and
    for a RunResult whose status is none of Timeout, Error and Complete it is
    NoCoverage with the names of the tests that were not skipped.  On what the
    runtime can hand it the function throws exactly when the answer is a
    truthy value without the array [tests]; on an answer of the declared type
    it is the typed function. *)
Theorem collectMutantResult_total_on_RunResult (mutant : TestableMutant.t) :
  Untyped.collectMutantResult mutant Untyped.null
  = Some (TestableMutant.result mutant MutantStatus.NoCoverage [])
  /\ (forall status tests,
        status <> RunStatus.Timeout ->
        status <> RunStatus.Error ->
        status <> RunStatus.Complete ->
        Untyped.collectMutantResult mutant (Untyped.object status (Some tests))
        = Some (TestableMutant.result mutant MutantStatus.NoCoverage
                  (map TestResult.name (filter exercised tests))))
  /\ (forall runResult : option RunResult.t,
        Untyped.collectMutantResult mutant (Untyped.typed runResult)
        = Some (collectMutantResult mutant runResult))
  /\ (forall answer,
        Untyped.collectMutantResult mutant answer = None
        <-> exists status, answer = Untyped.object status None).
Proof.
  repeat apply conj.
  - reflexivity.
  - intros status tests Ht He Hc. destruct status; try congruence. reflexivity.
  - intros [[status tests]|]; [|reflexivity].
    unfold Untyped.typed, Untyped.collectMutantResult, collectMutantResult. simpl.
    destruct status; try reflexivity.
    destruct (existsb _ tests); reflexivity.
  - intros [|status [tests|]]; simpl.
    + split; [discriminate|]. intros [? [=]].
    + split; [|intros [? [=]]].
      destruct status; try discriminate. destruct (existsb _ tests); discriminate.
    + split; [eauto|]. intros _. destruct status; reflexivity.
Qed.

Lemma collectMutantResult_total_on_RunResult_witness :
  RunStatus.Other <> RunStatus.Timeout /\
  Untyped.collectMutantResult (TranspiledMutant.mutant Sample.runnable)
    (Untyped.object RunStatus.Other (Some (RunResult.tests Sample.unknown)))
  = Some (TestableMutant.result (TranspiledMutant.mutant Sample.runnable)
            MutantStatus.NoCoverage ["adds"%string]).
Proof.
  split; [discriminate|].
  apply (proj1 (proj2 (collectMutantResult_total_on_RunResult
                         (TranspiledMutant.mutant Sample.runnable)))
           RunStatus.Other (RunResult.tests Sample.unknown));
    discriminate.
Defined.

(** C10 as stated fails: [collectMutantResult] does signal an error.  When
    the sandbox answers with a truthy value that has no array [tests], here a
    timeout without it, [runResult.tests.filter] throws a TypeError. *)
Lemma collectMutantResult_never_throws_counterexample :
  ~ (forall mutant answer, exists result,
       Untyped.collectMutantResult mutant answer = Some result).
Proof.
  intros H.
  destruct (H (TranspiledMutant.mutant Sample.runnable)
              (Untyped.object RunStatus.Timeout None)) as [result Hres].
  discriminate Hres.
Qed.

(** * The pipeline *)

Lemma mutantsOf_app_closed evs more :
  mutantsClosed evs = true -> mutantsOf (evs ++ more) = mutantsOf evs.
Proof.
  induction evs as [|ev evs IH]; simpl; [discriminate|].
  destruct ev; simpl; intros Hc; rewrite ?IH by assumption; reflexivity.
Qed.

(** In a resolved run every mutant received has been paired, and every
    pairing has delivered its verdict and recycled its sandbox. *)
Lemma resolved_run evs rs :
  settled (runInsideSandboxes evs) = Resolved rs ->
  let st := runInsideSandboxes evs in
  rs = collected st /\ active st = [] /\ mutantBuffer st = [] /\
  mutantsClosed evs = true /\
  map fst (pairings (calls st)) = mutantsOf evs /\
  map Used.result (recycles (calls st)) = rs /\
  map used_key (recycles (calls st)) ≡ₚ map pairing_key (pairings (calls st)).
Proof.
  intros Hres st. pose proof (Inv_run evs) as [_ _ Hr Hp _ Hz _ _ Hs].
  pose proof (Link_run evs) as [Hst Hse _]. fold st in Hr, Hp, Hz, Hs, Hst, Hse, Hres.
  rewrite Hres in Hs, Hst, Hse. destruct Hs as (-> & Hzc & Hac & _).
  rewrite Hzc in Hz. symmetry in Hz. apply andb_prop in Hz as [Hstop Hmb].
  apply bool_decide_eq_true in Hmb.
  specialize (Hst ltac:(done)). specialize (Hse ltac:(done)).
  unfold seen in Hse. rewrite Hmb, app_nil_r in Hse.
  rewrite Hac, app_nil_r in Hp.
  repeat split; try assumption. congruence.
Qed.

(** C1: a run resolves with one verdict per mutant.  Whenever the run
    resolves, the verdicts are as many as the mutants submitted and their
    identities are those of the mutants, each as often as submitted (so
    without duplicates when the mutants have none).  And the run does resolve:
    once the mutants are exhausted and the pool has handed over at least one
    sandbox, a promise is pending, and whichever pending promise delivers
    next and whatever the sandboxes answer, the run resolves when as many
    promises have delivered as mutants were outstanding. *)
Theorem run_one_verdict_per_mutant (allMutants : list TestableMutant.t)
    (evs : list Event) :
  map TranspiledMutant.mutant (mutantsOf evs) = allMutants ->
  let st := runInsideSandboxes evs in
  let complete (rs : list MutantResult.t) :=
    length rs = length allMutants
    /\ map MutantResult.id rs ≡ₚ map TestableMutant.id allMutants
    /\ (NoDup (map TestableMutant.id allMutants) -> NoDup (map MutantResult.id rs)) in
  (forall rs, settled st = Resolved rs -> complete rs)
  /\ (settled st = Pending ->
      mutantsClosed evs = true ->
      supplied evs <> [] ->
      active st <> []
      /\ forall choices, length choices = outstanding st ->
         exists rs,
           settled (runInsideSandboxes (evs ++ schedule st choices)) = Resolved rs
           /\ complete rs).
Proof.
  intros Hall st complete.
  assert (Hsafe : forall evs' rs,
            mutantsOf evs' = mutantsOf evs ->
            settled (runInsideSandboxes evs') = Resolved rs -> complete rs).
  { intros evs' rs Hsame Hres.
    destruct (resolved_run evs' rs Hres) as (_ & _ & _ & _ & Hseen & Hrs & Hperm).
    assert (Hids : map MutantResult.id rs ≡ₚ map TestableMutant.id allMutants).
    { apply (Permutation_map fst) in Hperm.
      rewrite <- Hall, <- Hsame, <- Hseen, <- Hrs, !map_map.
      rewrite !map_map in Hperm. exact Hperm. }
    unfold complete. repeat split.
    - apply Permutation_length in Hids. rewrite !length_map in Hids. exact Hids.
    - exact Hids.
    - intros Hnd. rewrite Hids. exact Hnd. }
  split.
  - intros rs. apply Hsafe. reflexivity.
  - intros Hpend Hclosed Hsup.
    pose proof (Inv_run evs) as HI. pose proof (Link_run evs) as [Hst _ _].
    pose proof (supplied_circulating evs Hpend Hsup) as Hcirc.
    fold st in HI, Hst, Hcirc. rewrite Hpend in Hst.
    specialize (Hst ltac:(done)). rewrite Hclosed in Hst.
    split.
    + pose proof HI as [_ _ _ _ _ Hz _ He Hs]. rewrite Hpend in Hs.
      destruct Hs as [_ Hza]. rewrite Hst in Hz. simpl in Hz.
      rewrite circulating_eq in Hcirc. intros Hnil.
      destruct (zipCompleted st); [by apply Hza|].
      destruct (mutantBuffer st); [discriminate|].
      destruct He as [?|Hsb]; [discriminate|].
      rewrite Hnil, Hsb in Hcirc. simpl in Hcirc. lia.
    + intros choices Hlen.
      destruct (drain choices st HI Hpend Hst Hcirc Hlen) as (rs & Hres).
      exists rs.
      assert (Hres' : settled (runInsideSandboxes (evs ++ schedule st choices))
                      = Resolved rs).
      { unfold runInsideSandboxes. rewrite foldl_app. exact Hres. }
      split; [exact Hres'|]. eapply Hsafe; [|exact Hres'].
      apply mutantsOf_app_closed. exact Hclosed.
Qed.

Lemma run_one_verdict_per_mutant_witness :
  map TranspiledMutant.mutant (mutantsOf Sample.five_on_two)
  = map TranspiledMutant.mutant Sample.five
  /\ supplied Sample.five_on_two = [Sample.sandbox0; Sample.sandbox1]
  /\ length Sample.last_first = outstanding (runInsideSandboxes Sample.five_on_two)
  /\ exists rs,
       settled (runInsideSandboxes
                  (Sample.five_on_two
                   ++ schedule (runInsideSandboxes Sample.five_on_two) Sample.last_first))
       = Resolved rs
       /\ length rs = 5
       /\ NoDup (map MutantResult.id rs).
Proof.
  split; [reflexivity|]. split; [reflexivity|]. split; [reflexivity|].
  destruct (proj2 (proj2 (run_one_verdict_per_mutant
                            (map TranspiledMutant.mutant Sample.five)
                            Sample.five_on_two eq_refl)
                     eq_refl eq_refl ltac:(discriminate))
              Sample.last_first eq_refl)
    as (rs & Hres & Hlen & _ & Hnd).
  exists rs. split; [exact Hres|]. split; [exact Hlen|].
  apply Hnd. vm_compute. repeat (apply NoDup_cons; split; [|]).
  all: try apply NoDup_nil_2.
  all: intros Hin; apply list_elem_of_In in Hin; simpl in Hin;
    repeat (destruct Hin as [Hin|Hin]; [discriminate Hin|]); exact Hin.
Defined.

Lemma closes_closing cs observer rs :
  closes (cs ++ closing_calls observer rs) = S (closes cs).
Proof.
  unfold closes, closing_calls. rewrite omap_app, length_app.
  destruct observer; simpl; lia.
Qed.

Lemma allTested_closing cs observer rs :
  allTested (cs ++ closing_calls observer rs) = allTested cs ++ [rs].
Proof.
  unfold allTested, closing_calls. rewrite omap_app.
  destruct observer; reflexivity.
Qed.

Lemma last_closing cs observer rs :
  last (cs ++ closing_calls observer rs) = Some (Call_onAllMutantsTested rs).
Proof.
  unfold closing_calls.
  destruct observer; simpl;
    [change (cs ++ [Call_completeRecycle; Call_recycleObserver_complete;
                    Call_onAllMutantsTested rs])
       with (cs ++ [Call_completeRecycle; Call_recycleObserver_complete]
                ++ [Call_onAllMutantsTested rs])
    |change (cs ++ [Call_completeRecycle; Call_onAllMutantsTested rs])
       with (cs ++ [Call_completeRecycle] ++ [Call_onAllMutantsTested rs])];
    rewrite app_assoc; apply last_snoc.
Qed.

(** What [recycle] does with the sandbox of a delivery: it goes back into
    the merged supply, where [zip] pairs it at once with the mutant that has
    waited longest, or keeps it for the next mutant; once [zip] has completed
    nobody listens any more. *)
Lemma promise_fulfil_reenters i runResult p st :
  Inv st -> settled st = Pending -> active st !! i = Some p ->
  let b := Used.sandbox (fulfilment p runResult) in
  let st' := promise_fulfil i runResult st in
  b = promise_sandbox p
  /\ (zipCompleted st = false -> mutantBuffer st = [] ->
      sandboxBuffer st' = sandboxBuffer st ++ [b]
      /\ active st' = delete i (active st)
      /\ pairings (calls st') = pairings (calls st))
  /\ (forall a waiting, mutantBuffer st = a :: waiting ->
      mutantBuffer st' = waiting
      /\ active st' = delete i (active st) ++ [paired a b]
      /\ pairings (calls st') = pairings (calls st) ++ [(a, b)])
  /\ (zipCompleted st = true ->
      sandboxBuffer st' = sandboxBuffer st
      /\ pairings (calls st') = pairings (calls st)).
Proof.
  intros HI Hpend Hi. pose proof HI as [Hwf _ _ _ _ Hz Ho He _].
  assert (Hb : Used.sandbox (fulfilment p runResult) = promise_sandbox p).
  { unfold promise_sandbox. rewrite <- (fulfilment_key p runResult); [reflexivity|].
    eapply Forall_forall in Hwf; [exact Hwf|]. eapply list_elem_of_lookup_2. exact Hi. }
  destruct (recycleObserver st) eqn:Hobs.
  2:{ destruct (Ho eq_refl) as [_ Hac]. rewrite Hac in Hi. discriminate. }
  destruct st as [ro ms ss mb sb zc ac co se ca]; simpl in *. subst se ro.
  rewrite (promise_fulfil_mk i runResult p) by assumption. cbv zeta.
  split; [exact Hb|].
  destruct zc; [destruct (delete i ac) eqn:Hdel|destruct mb as [|a mb']]; simpl.
  - split; [discriminate|]. split.
    + intros a waiting ->. destruct ms; discriminate.
    + intros _. split; [reflexivity|].
      rewrite pairings_closing. autorewrite with calls. reflexivity.
  - split; [discriminate|]. split.
    + intros a waiting ->. destruct ms; discriminate.
    + intros _. split; [reflexivity|]. autorewrite with calls. reflexivity.
  - split; [|split; [discriminate|discriminate]].
    intros _ _. split; [reflexivity|]. split; [reflexivity|].
    autorewrite with calls. reflexivity.
  - split; [discriminate|]. split; [|discriminate].
    intros a' waiting [= <- <-]. split; [reflexivity|]. split; [reflexivity|].
    autorewrite with calls. reflexivity.
Qed.

(** C4: every pairing recycles its sandbox exactly once, when its verdict is
    delivered and on whichever path the verdict was produced, and the
    recycled sandbox goes back into the merged supply.  At any moment the
    pairings made are those still holding their sandbox together with those
    that recycled it, each once; the verdicts recycled are the verdicts
    reported, in the same order.  The delivery of any promise, early or
    executed, begins with the one recycle of the sandbox its pairing held;
    that sandbox is paired at once with the mutant that has waited longest,
    or, when no mutant waits, it is kept in [zip]'s buffer for the next one.
    So while mutants may still come no sandbox is lost or doubled: the
    sandboxes held by pairings or waiting in the buffer are exactly those the
    pool handed over, and every sandbox handed over or recycled has been
    paired or waits.  In a resolved run the recycle events are exactly the
    pairings. *)
Theorem recycle_once_per_pairing (evs : list Event) :
  let st := runInsideSandboxes evs in
  map used_key (recycles (calls st)) ++ map promise_key (active st)
  ≡ₚ map pairing_key (pairings (calls st))
  /\ map Used.result (recycles (calls st)) = tested (calls st)
  /\ (forall i runResult p,
        settled st = Pending -> active st !! i = Some p ->
        let used := fulfilment p runResult in
        let st' := step st (Promise_fulfil i runResult) in
        used_key used = promise_key p
        /\ (exists more,
              calls st' = calls st ++ Call_recycle used :: more
              /\ recycles more = [])
        /\ (zipCompleted st = false -> mutantBuffer st = [] ->
            sandboxBuffer st' = sandboxBuffer st ++ [Used.sandbox used]
            /\ active st' = delete i (active st)
            /\ pairings (calls st') = pairings (calls st))
        /\ (forall a waiting, mutantBuffer st = a :: waiting ->
            mutantBuffer st' = waiting
            /\ active st' = delete i (active st) ++ [paired a (Used.sandbox used)]
            /\ pairings (calls st') = pairings (calls st) ++ [(a, Used.sandbox used)]))
  /\ (settled st = Pending -> zipCompleted st = false ->
      held st ≡ₚ supplied evs
      /\ map snd (pairings (calls st)) ++ sandboxBuffer st
         ≡ₚ supplied evs ++ map Used.sandbox (recycles (calls st)))
  /\ (forall rs,
        settled st = Resolved rs ->
        map used_key (recycles (calls st)) ≡ₚ map pairing_key (pairings (calls st))
        /\ length (recycles (calls st)) = length (pairings (calls st))).
Proof.
  intros st. pose proof (Inv_run evs) as HI. fold st in HI.
  pose proof HI as [Hwf Ht Hr Hp _ _ _ _ _].
  repeat apply conj.
  - exact Hp.
  - congruence.
  - intros i runResult p Hpend Hi used st'.
    assert (Hst' : st' = promise_fulfil i runResult st)
      by (unfold st', step; rewrite Hpend; reflexivity).
    rewrite Hst'.
    destruct (promise_fulfil_reenters i runResult p st HI Hpend Hi)
      as (_ & Hidle & Hwaits & _).
    split; [|split; [|split]].
    + apply fulfilment_key. eapply Forall_forall in Hwf; [eassumption|].
      eapply list_elem_of_lookup_2; eassumption.
    + destruct (promise_fulfil_delivers i runResult p st HI Hpend Hi)
        as (_ & _ & more & Hcalls & Hrec & _).
      exists more. split; assumption.
    + exact Hidle.
    + exact Hwaits.
  - intros Hpend Hzc.
    pose proof (cons_held _ _ (Conserved_run evs) Hpend Hzc) as Hheld.
    fold st in Hheld. split; [exact Hheld|].
    apply (Permutation_map snd) in Hp. rewrite map_app, !map_map in Hp.
    rewrite (map_ext (fun x => (pairing_key x).2) snd) in Hp by reflexivity.
    rewrite <- Hp, <- Hheld, <- app_assoc.
    etrans; [|apply Permutation_app_comm]. apply Permutation_refl.
  - intros rs Hres.
    destruct (resolved_run evs rs Hres) as (_ & _ & _ & _ & _ & _ & Hperm).
    split; [exact Hperm|].
    apply Permutation_length in Hperm. rewrite !length_map in Hperm. exact Hperm.
Qed.

Lemma recycle_once_per_pairing_witness :
  let st := runInsideSandboxes Sample.five_on_two in
  let st' := step st (Promise_fulfil 0 (Some Sample.killing)) in
  settled st = Pending
  /\ active st !! 0 = Some (paired (Sample.named "m1") Sample.sandbox0)
  /\ mutantBuffer st = map Sample.named ["m3"%string; "m4"%string; "m5"%string]
  /\ mutantBuffer st' = map Sample.named ["m4"%string; "m5"%string]
  /\ active st'
     = [paired (Sample.named "m2") Sample.sandbox1;
        paired (Sample.named "m3") Sample.sandbox0]
  /\ pairings (calls st')
     = pairings (calls st) ++ [(Sample.named "m3", Sample.sandbox0)].
Proof.
  intros st st'.
  split; [reflexivity|]. split; [reflexivity|]. split; [reflexivity|].
  apply (proj2 (proj2 (proj2
           (proj1 (proj2 (proj2 (recycle_once_per_pairing Sample.five_on_two)))
              0 (Some Sample.killing) (paired (Sample.named "m1") Sample.sandbox0)
              eq_refl eq_refl)))
           (Sample.named "m3") (map Sample.named ["m4"%string; "m5"%string])).
  reflexivity.
Defined.

(** C5, as the code has it: [completeRecycle] is invoked at most once in a
    run: exactly once in a run that resolves, and never in a run that rejects
    or is still pending.  When it has been invoked the mutants are exhausted,
    none waits for a sandbox, no pairing is outstanding, every pairing has
    recycled its sandbox, and all of that was logged before the invocation.
    It is not missed: unless the run has been rejected, it has been invoked
    as soon as the mutants are exhausted and nothing is outstanding. *)
Theorem completeRecycle_once (evs : list Event) :
  let st := runInsideSandboxes evs in
  closes (calls st) <= 1
  /\ (closes (calls st) = 1 <-> exists rs, settled st = Resolved rs)
  /\ (closes (calls st) <> 0 ->
      mutantsClosed evs = true /\ mutantBuffer st = [] /\ active st = []
      /\ map fst (pairings (calls st)) = mutantsOf evs
      /\ exists cs rs,
           calls st = cs ++ closing_calls (recycleObserver st) rs
           /\ closes cs = 0
           /\ pairings cs = pairings (calls st)
           /\ recycles cs = recycles (calls st)
           /\ map used_key (recycles cs) ≡ₚ map pairing_key (pairings cs))
  /\ (settled st <> Rejected -> mutantsClosed evs = true -> outstanding st = 0 ->
      closes (calls st) = 1).
Proof.
  cbv zeta. pose proof (Inv_run evs) as HI. pose proof (Link_run evs) as HL.
  pose proof (resolved_run evs) as HR. cbv zeta in HR.
  generalize dependent (runInsideSandboxes evs). intros st HI HL HR.
  pose proof HI as [_ _ _ _ _ Hz _ _ Hs]. pose proof HL as [Hst _ _].
  assert (Hcases :
    (exists rs cs, settled st = Resolved rs
       /\ calls st = cs ++ closing_calls (recycleObserver st) rs /\ quiet cs
       /\ closes (calls st) = 1)
    \/ ((forall rs, settled st <> Resolved rs) /\ closes (calls st) = 0)).
  { destruct (settled st) as [|rs|] eqn:Hset.
    - right. split; [discriminate|]. apply Hs.
    - left. destruct Hs as (_ & _ & _ & cs & Hcs & Hq).
      exists rs, cs. split; [reflexivity|]. split; [exact Hcs|]. split; [exact Hq|].
      rewrite Hcs, closes_closing. destruct Hq as [-> _]. reflexivity.
    - right. split; [discriminate|]. apply Hs. }
  repeat apply conj.
  - destruct Hcases as [(_ & _ & _ & _ & _ & ->)|[_ ->]]; lia.
  - intros Hone. destruct Hcases as [(rs & _ & Hres & _)|[_ Hzero]]; [eauto|lia].
  - intros [rs Hres]. destruct Hcases as [(_ & _ & _ & _ & _ & H1)|[Hno _]];
      [exact H1|destruct (Hno rs Hres)].
  - intros Hnz. destruct Hcases as [(rs & cs & Hres & Hcs & Hq & _)|[_ Hzero]]; [|lia].
    destruct (HR rs Hres) as (_ & Hac & Hmb & Hcl & Hseen & _ & Hperm).
    repeat split; try assumption.
    exists cs, rs. rewrite Hcs in Hperm |- *.
    rewrite pairings_closing, recycles_closing in *.
    repeat split; try assumption. apply Hq.
  - intros Hrej Hclosed Hout.
    destruct Hcases as [(_ & _ & _ & _ & _ & H1)|[Hno _]]; [exact H1|exfalso].
    specialize (Hst Hrej). rewrite Hclosed in Hst.
    unfold outstanding in Hout.
    destruct (mutantBuffer st) eqn:Hmb; [|simpl in Hout; lia].
    destruct (active st) eqn:Hac; [|simpl in Hout; lia].
    rewrite Hst in Hz. simpl in Hz.
    destruct (settled st) as [|rs|] eqn:Hset.
    + destruct Hs as [_ Hza]. apply Hza; [exact Hz|reflexivity].
    + apply (Hno rs). reflexivity.
    + apply Hrej. reflexivity.
Qed.

Lemma completeRecycle_once_witness :
  closes (calls (runInsideSandboxes Sample.out_of_order)) <> 0
  /\ active (runInsideSandboxes Sample.out_of_order) = [].
Proof.
  split; [vm_compute; discriminate|].
  apply (proj1 (proj2 (proj2 (completeRecycle_once Sample.out_of_order)))).
  vm_compute. discriminate.
Defined.

(** C5 as stated fails: not every run invokes [completeRecycle].  With one
    sandbox and one mutant that has to run, the run whose [runMutant] promise
    rejects is over, rejected, and has never invoked it. *)
Lemma completeRecycle_every_run_counterexample :
  ~ (forall evs,
       settled (runInsideSandboxes evs) <> Pending ->
       closes (calls (runInsideSandboxes evs)) = 1).
Proof.
  intros H. specialize (H (Sample.one_running ++ [Promise_reject 0])).
  vm_compute in H. specialize (H ltac:(discriminate)). discriminate H.
Qed.

(** C7, as the code has it: when a mutant that passed none of the three early
    checks is classified without a RunResult (the sandbox answered null), the
    run is not aborted: the mutant gets the verdict NoCoverage with no tests,
    which is reported and stored like any other verdict. *)
Theorem missing_outcome_is_NoCoverage (evs : list Event) (i : nat)
    (a : TranspiledMutant.t) (b : Sandbox) :
  let st := runInsideSandboxes evs in
  let st' := step st (Promise_fulfil i None) in
  settled st = Pending ->
  active st !! i = Some (paired a b) ->
  needsRun (a, b) = true ->
  settled st' <> Rejected
  /\ collected st' = collected st ++ [verdict a MutantStatus.NoCoverage []]
  /\ tested (calls st') = tested (calls st) ++ [verdict a MutantStatus.NoCoverage []].
Proof.
  cbv zeta. pose proof (Inv_run evs) as HI.
  generalize dependent (runInsideSandboxes evs). intros st HI Hpend Hi Hrun.
  pose proof (Inv_step st (Promise_fulfil i None) HI) as HI'.
  revert HI'. unfold step. rewrite Hpend. intros HI'.
  destruct (promise_fulfil_delivers i None _ st HI Hpend Hi) as (Hnot & Hco & _).
  destruct (paired_needsRun a b Hrun) as (k & Hp & Hk).
  rewrite Hp in Hco. simpl in Hco. rewrite Hk in Hco. simpl in Hco.
  split; [exact Hnot|]. split; [exact Hco|].
  rewrite (inv_tested _ HI'), (inv_tested _ HI). exact Hco.
Qed.

Lemma missing_outcome_is_NoCoverage_witness :
  settled (runInsideSandboxes Sample.one_running) = Pending
  /\ settled (step (runInsideSandboxes Sample.one_running) (Promise_fulfil 0 None))
     <> Rejected.
Proof.
  split; [reflexivity|].
  apply (missing_outcome_is_NoCoverage Sample.one_running 0
           Sample.runnable Sample.sandbox0); reflexivity.
Defined.

(** C7 as stated fails: with one sandbox and one mutant that has to run, a
    missing RunResult does not reject the run; the run resolves with a
    NoCoverage verdict for the mutant. *)
Lemma missing_outcome_aborts_counterexample :
  ~ (forall evs i a b,
       settled (runInsideSandboxes evs) = Pending ->
       active (runInsideSandboxes evs) !! i = Some (paired a b) ->
       needsRun (a, b) = true ->
       settled (step (runInsideSandboxes evs) (Promise_fulfil i None)) = Rejected
       /\ tested (calls (step (runInsideSandboxes evs) (Promise_fulfil i None)))
          = tested (calls (runInsideSandboxes evs))).
Proof.
  intros H.
  destruct (H Sample.one_running 0 Sample.runnable Sample.sandbox0
              eq_refl eq_refl eq_refl) as [Hrej _].
  vm_compute in Hrej. discriminate Hrej.
Qed.

(** C8: at every moment of a run the sandboxes held by pairings, together
    with those waiting in [zip]'s buffer, are among the sandboxes the pool has
    handed out, each at most as often as handed out.  So the pairings in
    flight are never more than the sandboxes that exist, no sandbox is held by
    two pairings at once, and the pairings made so far are never more than
    the sandboxes the merged supply has produced so far. *)
Theorem inflight_bounded_by_sandboxes (evs : list Event) :
  let st := runInsideSandboxes evs in
  held st ⊆+ poolOf evs
  /\ length (active st) <= length (poolOf evs)
  /\ (NoDup (poolOf evs) -> NoDup (map promise_sandbox (active st)))
  /\ length (pairings (calls st)) + length (sandboxBuffer st)
     <= length (poolOf evs) + length (recycles (calls st)).
Proof.
  cbv zeta. pose proof (Inv_run evs) as [_ _ _ Hp _ _ _ _ _].
  pose proof (Link_run evs) as [_ _ Hh].
  generalize dependent (runInsideSandboxes evs). intros st Hp Hh.
  pose proof (submseteq_length _ _ Hh) as Hlen.
  unfold held in Hh, Hlen. rewrite length_app, length_map in Hlen.
  apply Permutation_length in Hp. rewrite length_app, !length_map in Hp.
  repeat apply conj.
  - exact Hh.
  - lia.
  - intros Hnd. apply submseteq_Permutation in Hh as [rest Hrest].
    rewrite Hrest, <- app_assoc in Hnd.
    apply NoDup_app in Hnd as [Hnd _]. exact Hnd.
  - lia.
Qed.

Lemma inflight_bounded_by_sandboxes_witness :
  let st := runInsideSandboxes Sample.five_on_two in
  NoDup (poolOf Sample.five_on_two)
  /\ active st
     = [paired (Sample.named "m1") Sample.sandbox0;
        paired (Sample.named "m2") Sample.sandbox1]
  /\ length (mutantBuffer st) = 3
  /\ NoDup (map promise_sandbox (active st)).
Proof.
  intros st.
  assert (Hnd : NoDup (poolOf Sample.five_on_two)).
  { change (NoDup [SandboxNo 0; SandboxNo 1]).
    apply NoDup_cons. split; [|apply NoDup_singleton].
    intros Hin. apply list_elem_of_In in Hin. simpl in Hin.
    destruct Hin as [Heq|[]]. discriminate Heq. }
  split; [exact Hnd|]. split; [reflexivity|]. split; [reflexivity|].
  apply (proj1 (proj2 (proj2 (inflight_bounded_by_sandboxes Sample.five_on_two)))).
  exact Hnd.
Defined.

(** C9: the array a run resolves with is the list of the verdicts in the
    order of their reports to [onMutantTested], that is, completion order;
    that array is passed to [onAllMutantsTested] exactly once, as the last
    call of the run.  It is not the order of submission: with two sandboxes
    the second mutant can complete first. *)
Theorem results_in_completion_order :
  (forall evs rs,
     settled (runInsideSandboxes evs) = Resolved rs ->
     rs = tested (calls (runInsideSandboxes evs))
     /\ allTested (calls (runInsideSandboxes evs)) = [rs]
     /\ last (calls (runInsideSandboxes evs)) = Some (Call_onAllMutantsTested rs))
  /\ (exists evs rs,
        settled (runInsideSandboxes evs) = Resolved rs
        /\ map MutantResult.id rs <> map mutantId (mutantsOf evs)).
Proof.
  split.
  - intros evs rs Hres. pose proof (Inv_run evs) as [_ Ht _ _ _ _ _ _ Hs].
    generalize dependent (runInsideSandboxes evs). intros st Hres Ht Hs.
    rewrite Hres in Hs. destruct Hs as (Hrs & _ & _ & cs & Hcs & Hq).
    split; [congruence|].
    rewrite Hcs, allTested_closing, last_closing. destruct Hq as [_ ->]. done.
  - exists Sample.out_of_order.
    exists [verdict Sample.runnable2 MutantStatus.Survived ["adds"%string];
            verdict Sample.runnable MutantStatus.Killed ["adds"%string]].
    split; [vm_compute; reflexivity|].
    vm_compute. intros Heq. discriminate Heq.
Qed.

Lemma results_in_completion_order_witness :
  settled (runInsideSandboxes Sample.out_of_order)
  = Resolved [verdict Sample.runnable2 MutantStatus.Survived ["adds"%string];
              verdict Sample.runnable MutantStatus.Killed ["adds"%string]]
  /\ allTested (calls (runInsideSandboxes Sample.out_of_order))
     = [[verdict Sample.runnable2 MutantStatus.Survived ["adds"%string];
         verdict Sample.runnable MutantStatus.Killed ["adds"%string]]].
Proof.
  split; [reflexivity|].
  apply (proj1 results_in_completion_order Sample.out_of_order). reflexivity.
Defined.

(** * Scenarios of the specification *)

(** Three mutants on one sandbox: one without selected tests, one whose
    transform failed, one that runs and has a failing test.  The sandbox runs
    once, for the third. *)
Example scenario_three_mutants :
  let st := runInsideSandboxes
              [Subscribe_supply; Sandbox_next Sample.sandbox0;
               Mutant_next Sample.uncovered; Mutant_next Sample.broken;
               Mutant_next Sample.runnable; Mutants_complete;
               Promise_fulfil 0 None; Promise_fulfil 0 None;
               Promise_fulfil 0 (Some Sample.killing)] in
  settled st
  = Resolved [verdict Sample.uncovered MutantStatus.NoCoverage [];
              verdict Sample.broken MutantStatus.TranspileError [];
              verdict Sample.runnable MutantStatus.Killed ["adds"%string]]
  /\ runMutants (calls st) = [(Sample.runnable, Sample.sandbox0)].
Proof. split; reflexivity. Qed.

(** One mutant whose transform changed nothing: Survived, no run. *)
Example scenario_unchanged :
  let st := runInsideSandboxes
              [Subscribe_supply; Sandbox_next Sample.sandbox0;
               Mutant_next Sample.unchanged; Mutants_complete;
               Promise_fulfil 0 None] in
  settled st = Resolved [verdict Sample.unchanged MutantStatus.Survived []]
  /\ runMutants (calls st) = [].
Proof. split; reflexivity. Qed.

(** One mutant whose run times out: TimedOut, with no tests. *)
Example scenario_timeout :
  settled (runInsideSandboxes
             (Sample.one_running ++ [Promise_fulfil 0 (Some Sample.timeout)]))
  = Resolved [verdict Sample.runnable MutantStatus.TimedOut []].
Proof. reflexivity. Qed.

(** One mutant whose run completes with one test passed and one skipped:
    Survived, with the name of the test that was not skipped. *)
Example scenario_skipped :
  settled (runInsideSandboxes
             (Sample.one_running ++ [Promise_fulfil 0 (Some Sample.passing)]))
  = Resolved [verdict Sample.runnable MutantStatus.Survived ["adds"%string]].
Proof. reflexivity. Qed.

(** Five mutants on two sandboxes: two pairings are in flight while three
    mutants wait; once the five have delivered the run has resolved with five
    verdicts and both sandboxes were recycled at least twice. *)
Example scenario_five_on_two :
  let waiting := runInsideSandboxes Sample.five_on_two in
  let done := runInsideSandboxes
                (Sample.five_on_two
                 ++ map (Promise_fulfil 0) (replicate 5 (Some Sample.passing))) in
  length (active waiting) = 2 /\ length (mutantBuffer waiting) = 3
  /\ map MutantResult.id (collected done)
     = ["m1"%string; "m2"%string; "m3"%string; "m4"%string; "m5"%string]
  /\ map Used.sandbox (recycles (calls done))
     = [Sample.sandbox0; Sample.sandbox1; Sample.sandbox0; Sample.sandbox1;
        Sample.sandbox0]
  /\ closes (calls done) = 1.
Proof. repeat split; reflexivity. Qed.


(** * Further properties of the classifier *)

(** X1: [earlyResult] hands its pair on unchanged, and an early verdict can
    be read backwards: it carries the mutant's identity and no tests, and its
    status tells which check matched, TranspileError for a failed transform,
    NoCoverage for an empty selection after a transform that did not fail,
    Survived for an unchanged output after both other checks passed. *)
Theorem earlyResult_inversion (a : TranspiledMutant.t) (b : Sandbox) :
  (earlyResult (a, b)).1 = (a, b)
  /\ forall r,
       (earlyResult (a, b)).2 = Some r ->
       MutantResult.id r = mutantId a
       /\ MutantResult.testsRan r = []
       /\ ((MutantResult.status r = MutantStatus.TranspileError /\ transformFailed a)
           \/ (MutantResult.status r = MutantStatus.NoCoverage
               /\ ~ transformFailed a /\ notCovered a)
           \/ (MutantResult.status r = MutantStatus.Survived
               /\ ~ transformFailed a /\ ~ notCovered a /\ noChange a)).
Proof.
  unfold earlyResult, transformFailed, notCovered, noChange, mutantId.
  destruct (truthy _) eqn:Hf; simpl.
  { split; [reflexivity|]. intros r [= <-]. simpl. auto. }
  destruct (TestableMutant.selectedTests _) eqn:Hn; simpl.
  { split; [reflexivity|]. intros r [= <-]. simpl.
    split; [reflexivity|]. split; [reflexivity|]. right. left. auto. }
  destruct (TranspiledMutant.changedAnyTranspiledFiles a) eqn:Hc; simpl.
  { split; [reflexivity|]. intros r [=]. }
  split; [reflexivity|]. intros r [= <-]. simpl.
  split; [reflexivity|]. split; [reflexivity|]. right. right.
  repeat split; congruence.
Qed.

Lemma earlyResult_inversion_witness :
  (earlyResult (Sample.unchanged, Sample.sandbox0)).2
  = Some (verdict Sample.unchanged MutantStatus.Survived [])
  /\ MutantResult.testsRan (verdict Sample.unchanged MutantStatus.Survived []) = [].
Proof.
  split; [reflexivity|].
  apply (proj2 (earlyResult_inversion Sample.unchanged Sample.sandbox0)
           (verdict Sample.unchanged MutantStatus.Survived []) eq_refl).
Defined.

(** X2: [runInSandbox] calls [sandbox.runMutant] exactly when none of the
    three early checks matched: the transform did not fail, some test is
    selected and a transpiled file changed. *)
Theorem runMutant_iff_no_early_result (a : TranspiledMutant.t) (b : Sandbox) :
  invokesRunMutant (runInSandbox (earlyResult (createTuple a b))) = true
  <-> ~ transformFailed a /\ ~ notCovered a /\ ~ noChange a.
Proof.
  rewrite <- (needsRun_spec a b).
  unfold needsRun, createTuple, runInSandbox.
  destruct (earlyResult (a, b)) as [[a' b'] [r|]]; simpl; split; congruence.
Qed.

Ltac status_cases :=
  repeat match goal with
         | |- _ /\ _ => split
         | |- _ <-> _ => split
         | |- ~ _ => intro
         | |- _ -> _ => intro
         | H : ex _ |- _ => destruct H
         | H : _ /\ _ |- _ => destruct H
         | H : _ \/ _ |- _ => destruct H
         | H : Some _ = Some _ |- _ => injection H as H; subst
         end;
  simpl in *; try congruence; try tauto; eauto 10; try solve [exfalso; eauto 10].

(** X3: the verdict of [collectMutantResult] read backwards.  It always
    carries the mutant's identity and is never TranspileError; it is Killed
    exactly for a completed run with a failed test, and then lists at least
    one test; Survived exactly for a completed run without a failed test;
    TimedOut and RuntimeError exactly for a timed-out and an errored run;
    NoCoverage exactly when there is no RunResult or its status is none of
    the three. *)
Theorem collectMutantResult_inversion (mutant : TestableMutant.t)
    (runResult : option RunResult.t) :
  let r := collectMutantResult mutant runResult in
  let ran status := exists rr, runResult = Some rr /\ RunResult.status rr = status in
  let failing rr := exists t, In t (RunResult.tests rr)
                              /\ TestResult.status t = TestStatus.Failed in
  MutantResult.id r = TestableMutant.id mutant
  /\ MutantResult.status r <> MutantStatus.TranspileError
  /\ (MutantResult.status r = MutantStatus.Killed
      <-> exists rr, runResult = Some rr
                     /\ RunResult.status rr = RunStatus.Complete /\ failing rr)
  /\ (MutantResult.status r = MutantStatus.Killed -> MutantResult.testsRan r <> [])
  /\ (MutantResult.status r = MutantStatus.Survived
      <-> exists rr, runResult = Some rr
                     /\ RunResult.status rr = RunStatus.Complete /\ ~ failing rr)
  /\ (MutantResult.status r = MutantStatus.TimedOut <-> ran RunStatus.Timeout)
  /\ (MutantResult.status r = MutantStatus.RuntimeError <-> ran RunStatus.Error)
  /\ (MutantResult.status r = MutantStatus.NoCoverage
      <-> runResult = None \/ ran RunStatus.Other).
Proof.
  cbv zeta.
  assert (Hex : forall rr,
            existsb (fun t => bool_decide (TestResult.status t = TestStatus.Failed))
              (RunResult.tests rr) = true
            <-> exists t, In t (RunResult.tests rr)
                          /\ TestResult.status t = TestStatus.Failed).
  { intros rr. rewrite existsb_exists.
    split; intros (t & Hin & Hf); exists t; split; try assumption;
      [apply bool_decide_eq_true in Hf|apply bool_decide_eq_true]; assumption. }
  destruct runResult as [rr|]; simpl; [|status_cases].
  specialize (Hex rr).
  destruct rr as [status tests]; simpl in *.
  destruct status; simpl; [|status_cases..].
  destruct (existsb _ tests) eqn:Hany; simpl.
  - assert (Hfail : exists t, In t tests /\ TestResult.status t = TestStatus.Failed)
      by (apply Hex; reflexivity).
    repeat apply conj; try solve [status_cases].
    intros _. destruct Hfail as (t & Hin & Hf).
    assert (Hn : In (TestResult.name t)
                   (map TestResult.name
                      (filter (fun t => TestResult.status t <> TestStatus.Skipped)
                         tests))).
    { apply in_map. apply list_elem_of_In, list_elem_of_filter.
      split; [rewrite Hf; discriminate|apply list_elem_of_In; exact Hin]. }
    intros Hnil. rewrite Hnil in Hn. destruct Hn.
  - assert (Hnone : ~ exists t, In t tests /\ TestResult.status t = TestStatus.Failed).
    { intros H. apply Hex in H. discriminate H. }
    repeat apply conj; try solve [status_cases].
Qed.

Lemma collectMutantResult_inversion_witness :
  MutantResult.status
    (collectMutantResult (TranspiledMutant.mutant Sample.runnable) (Some Sample.killing))
  = MutantStatus.Killed
  /\ MutantResult.testsRan
       (collectMutantResult (TranspiledMutant.mutant Sample.runnable)
          (Some Sample.killing)) <> [].
Proof.
  split; [reflexivity|].
  apply (proj1 (proj2 (proj2 (proj2
           (collectMutantResult_inversion (TranspiledMutant.mutant Sample.runnable)
              (Some Sample.killing)))))).
  reflexivity.
Defined.

(** X4: whatever the status of the run, the tests of the verdict are the
    names of the tests that were not skipped: a name is listed exactly when
    some test with that name was exercised, the names keep the order of the
    tests (they are the test names with some left out), nothing is left out
    when no test was skipped, and nothing is listed when all were. *)
Theorem testsRan_are_exercised (mutant : TestableMutant.t) (runResult : RunResult.t) :
  let names := MutantResult.testsRan (collectMutantResult mutant (Some runResult)) in
  let tests := RunResult.tests runResult in
  (forall n, In n names
             <-> exists t, In t tests /\ TestResult.name t = n /\ exercised t)
  /\ names `sublist_of` map TestResult.name tests
  /\ ((forall t, In t tests -> exercised t) -> names = map TestResult.name tests)
  /\ ((forall t, In t tests -> ~ exercised t) -> names = []).
Proof.
  cbv zeta. unfold collectMutantResult. simpl. fold exercised.
  generalize (RunResult.tests runResult). clear. intros tests.
  repeat apply conj.
  - intros n. rewrite in_map_iff. split.
    + intros (t & Hn & Hin). apply list_elem_of_In, list_elem_of_filter in Hin as [He Hin].
      exists t. split; [apply list_elem_of_In; exact Hin|]. split; assumption.
    + intros (t & Hin & Hn & He). exists t. split; [exact Hn|].
      apply list_elem_of_In, list_elem_of_filter. split; [exact He|].
      apply list_elem_of_In. exact Hin.
  - induction tests as [|t tests IH]; simpl; [constructor|].
    rewrite filter_cons. destruct (decide (exercised t)); simpl.
    + apply sublist_skip. exact IH.
    + apply sublist_cons. exact IH.
  - induction tests as [|t tests IH]; intros Hall; simpl; [reflexivity|].
    rewrite filter_cons. destruct (decide (exercised t)) as [|Hno]; simpl.
    + f_equal. apply IH. intros t' Hin. apply Hall. right. exact Hin.
    + destruct Hno. apply Hall. left. reflexivity.
  - induction tests as [|t tests IH]; intros Hnone; simpl; [reflexivity|].
    rewrite filter_cons. destruct (decide (exercised t)) as [He|]; simpl.
    + destruct (Hnone t); [left; reflexivity|exact He].
    + apply IH. intros t' Hin. apply Hnone. right. exact Hin.
Qed.

Lemma testsRan_are_exercised_witness :
  (forall t, In t (RunResult.tests Sample.timeout_late) -> exercised t)
  /\ MutantResult.testsRan
       (collectMutantResult (TranspiledMutant.mutant Sample.runnable)
          (Some Sample.timeout_late))
     = ["adds"%string; "subtracts"%string].
Proof.
  assert (H : forall t, In t (RunResult.tests Sample.timeout_late) -> exercised t).
  { intros t [<-|[<-|[]]]; discriminate. }
  split; [exact H|].
  apply (proj1 (proj2 (proj2 (testsRan_are_exercised
                                (TranspiledMutant.mutant Sample.runnable)
                                Sample.timeout_late)))).
  exact H.
Defined.

Lemma earlyResult_fst a b : (earlyResult (a, b)).1 = (a, b).
Proof. unfold earlyResult. repeat case_match; reflexivity. Qed.

(** X5: whichever path [runInSandbox] takes and whatever the sandbox
    answers, the value it resolves with names the sandbox of the pair and a
    verdict for the mutant of the pair.  An early verdict does not depend on
    any answer; otherwise the verdict is [collectMutantResult] of the
    answer. *)
Theorem runInSandbox_keeps_the_pair (a : TranspiledMutant.t) (b : Sandbox)
    (runResult : option RunResult.t) :
  let promise := runInSandbox (earlyResult (createTuple a b)) in
  let used := fulfilment promise runResult in
  Used.sandbox used = b
  /\ MutantResult.id (Used.result used) = mutantId a
  /\ (needsRun (a, b) = false ->
      (earlyResult (a, b)).2 = Some (Used.result used)
      /\ forall other, fulfilment promise other = used)
  /\ (needsRun (a, b) = true ->
      Used.result used = collectMutantResult (TranspiledMutant.mutant a) runResult).
Proof.
  cbv zeta.
  pose proof (fulfilment_key (paired a b) runResult (paired_wf a b)) as Hkey.
  rewrite paired_key in Hkey. unfold used_key, pairing_key, paired in Hkey.
  injection Hkey as Hid Hsb.
  split; [exact Hsb|]. split; [exact Hid|].
  unfold needsRun, createTuple, runInSandbox.
  destruct (earlyResult (a, b)) as [[a' b'] [r|]] eqn:He; simpl.
  - split; [|discriminate]. intros _. split; reflexivity.
  - split; [discriminate|]. intros _.
    pose proof (earlyResult_fst a b) as Hp.
    rewrite He in Hp. simpl in Hp. injection Hp as -> ->. reflexivity.
Qed.

Lemma runInSandbox_keeps_the_pair_witness :
  needsRun (Sample.uncovered, Sample.sandbox0) = false
  /\ (earlyResult (Sample.uncovered, Sample.sandbox0)).2
     = Some (Used.result
               (fulfilment
                  (runInSandbox
                     (earlyResult (createTuple Sample.uncovered Sample.sandbox0)))
                  (Some Sample.killing))).
Proof.
  split; [reflexivity|].
  apply (proj1 (proj2 (proj2 (runInSandbox_keeps_the_pair
                                Sample.uncovered Sample.sandbox0
                                (Some Sample.killing))))).
  reflexivity.
Defined.


(** * Further properties of the pipeline *)

(** X6: [zip] takes the mutants in the order [transpiledMutants] emits them
    and skips none: as long as the run has not been rejected, the mutants
    already paired, in pairing order, followed by those still waiting for a
    sandbox, are exactly the mutants emitted so far. *)
Theorem mutants_paired_in_order (evs : list Event) :
  let st := runInsideSandboxes evs in
  settled st <> Rejected ->
  map fst (pairings (calls st)) ++ mutantBuffer st = mutantsOf evs.
Proof.
  cbv zeta. intros Hrej. exact (link_seen _ _ (Link_run evs) Hrej).
Qed.

Lemma mutants_paired_in_order_witness :
  settled (runInsideSandboxes Sample.five_on_two) <> Rejected
  /\ map fst (pairings (calls (runInsideSandboxes Sample.five_on_two)))
     ++ mutantBuffer (runInsideSandboxes Sample.five_on_two)
     = mutantsOf Sample.five_on_two.
Proof.
  assert (H : settled (runInsideSandboxes Sample.five_on_two) <> Rejected)
    by (vm_compute; discriminate).
  split; [exact H|]. apply (mutants_paired_in_order Sample.five_on_two). exact H.
Defined.

(** X7: in every run [sandbox.runMutant] has been called exactly for the
    pairings that had no early result, once each and in pairing order, with
    the mutant on the sandbox it was paired with. *)
Theorem runMutant_once_per_executed_pairing (evs : list Event) :
  let st := runInsideSandboxes evs in
  runMutants (calls st) = List.filter needsRun (pairings (calls st)).
Proof. exact (inv_runs _ (Inv_run evs)). Qed.

(** X8: [zip] pairs eagerly.  At no moment of a run does a mutant wait in
    its buffer while a sandbox waits in the other; and when nothing is in
    flight in a run that has not settled, either the transpiler has not
    finished or mutants wait and not one sandbox is in circulation. *)
Theorem no_idle_sandbox_while_a_mutant_waits (evs : list Event) :
  let st := runInsideSandboxes evs in
  (mutantBuffer st = [] \/ sandboxBuffer st = [])
  /\ (settled st = Pending -> active st = [] ->
      mutantsStopped st = false \/ (mutantBuffer st <> [] /\ circulating st = 0)).
Proof.
  cbv zeta. pose proof (Inv_run evs) as [_ _ _ _ _ Hz _ He Hs].
  generalize dependent (runInsideSandboxes evs). intros st Hz He Hs.
  split; [exact He|]. intros Hpend Hac. rewrite Hpend in Hs. destruct Hs as [_ Hza].
  destruct (mutantsStopped st); [right|left; reflexivity].
  destruct (mutantBuffer st) as [|a mb].
  - simpl in Hz. destruct (Hza Hz Hac).
  - split; [discriminate|]. destruct He as [?|Hsb]; [discriminate|].
    rewrite circulating_eq, Hac, Hsb. reflexivity.
Qed.

Lemma no_idle_sandbox_while_a_mutant_waits_witness :
  settled (runInsideSandboxes [Mutant_next Sample.runnable; Mutants_complete]) = Pending
  /\ (mutantsStopped (runInsideSandboxes [Mutant_next Sample.runnable; Mutants_complete])
      = false
      \/ (mutantBuffer (runInsideSandboxes [Mutant_next Sample.runnable; Mutants_complete])
          <> []
          /\ circulating
               (runInsideSandboxes [Mutant_next Sample.runnable; Mutants_complete]) = 0)).
Proof.
  split; [reflexivity|].
  apply (proj2 (no_idle_sandbox_while_a_mutant_waits
                  [Mutant_next Sample.runnable; Mutants_complete])); reflexivity.
Defined.

(** X9: no mutant is lost on the way.  At every moment of a run that has
    not been rejected, the identities of the verdicts collected, of the
    mutants in flight and of the mutants waiting for a sandbox are together
    the identities of the mutants emitted so far, each as often as emitted. *)
Theorem every_mutant_accounted_for (evs : list Event) :
  let st := runInsideSandboxes evs in
  settled st <> Rejected ->
  map MutantResult.id (collected st)
  ++ map (fun p => (promise_key p).1) (active st)
  ++ map mutantId (mutantBuffer st)
  ≡ₚ map mutantId (mutantsOf evs).
Proof.
  cbv zeta. intros Hrej.
  pose proof (Inv_run evs) as [_ _ Hr Hp _ _ _ _ _].
  pose proof (link_seen _ _ (Link_run evs) Hrej) as Hseen.
  generalize dependent (runInsideSandboxes evs). intros st Hrej Hr Hp Hseen.
  rewrite <- Hseen. unfold seen. rewrite map_app, map_map, app_assoc.
  apply Permutation_app; [|reflexivity].
  apply (Permutation_map fst) in Hp. rewrite map_app, !map_map in Hp.
  rewrite <- Hr, map_map. exact Hp.
Qed.

Lemma every_mutant_accounted_for_witness :
  settled (runInsideSandboxes Sample.five_on_two) <> Rejected
  /\ length (map MutantResult.id (collected (runInsideSandboxes Sample.five_on_two))
             ++ map (fun p => (promise_key p).1)
                  (active (runInsideSandboxes Sample.five_on_two))
             ++ map mutantId (mutantBuffer (runInsideSandboxes Sample.five_on_two)))
     = 5.
Proof.
  assert (H : settled (runInsideSandboxes Sample.five_on_two) <> Rejected)
    by (vm_compute; discriminate).
  split; [exact H|].
  rewrite (Permutation_length (every_mutant_accounted_for Sample.five_on_two H)).
  reflexivity.
Defined.

(** X11: without mutants the run needs no sandbox.  When
    [transpiledMutants] has emitted nothing and completes, the run resolves
    at once with the empty array, whether or not the supply of sandboxes was
    ever subscribed; [completeRecycle] is invoked, and it completes
    [recycleObserver] only if that had been assigned. *)
Theorem no_mutants_resolves_empty (evs : list Event) :
  let st := runInsideSandboxes evs in
  let st' := runInsideSandboxes (evs ++ [Mutants_complete]) in
  mutantsOf evs = [] -> mutantsClosed evs = false -> settled st <> Rejected ->
  settled st' = Resolved []
  /\ calls st' = calls st ++ closing_calls (recycleObserver st) []
  /\ pairings (calls st) = [] /\ runMutants (calls st) = [].
Proof.
  cbv zeta. intros Hnone Hopen Hrej.
  unfold runInsideSandboxes at 1 2. rewrite foldl_snoc. fold (runInsideSandboxes evs).
  pose proof (Inv_run evs) as HI. pose proof (Link_run evs) as [Hst Hse _].
  specialize (Hst Hrej). specialize (Hse Hrej). rewrite Hnone in Hse. rewrite Hopen in Hst.
  generalize dependent (runInsideSandboxes evs). intros st Hrej HI Hst Hse.
  destruct HI as [_ _ Hr Hp Hrun Hz _ _ Hs].
  unfold seen in Hse. apply app_eq_nil in Hse as [Hps Hmb].
  apply map_eq_nil in Hps. rewrite Hps in Hp, Hrun. simpl in Hp, Hrun.
  apply Permutation_nil_r, app_eq_nil in Hp as [Hrec Hac].
  apply map_eq_nil in Hrec. apply map_eq_nil in Hac. rewrite Hrec in Hr. simpl in Hr.
  unfold step.
  destruct (settled st) eqn:Hset.
  - destruct st as [ro ms ss mb sb zc ac co se ca]; simpl in *. subst.
    rewrite mutants_complete_mk. simpl. repeat split; assumption.
  - destruct Hs as (_ & Hzc & _). rewrite Hzc, Hst in Hz. discriminate Hz.
  - destruct Hrej. reflexivity.
Qed.

Lemma no_mutants_resolves_empty_witness :
  mutantsOf [Subscribe_supply; Sandbox_next Sample.sandbox0] = []
  /\ settled (runInsideSandboxes
                ([Subscribe_supply; Sandbox_next Sample.sandbox0] ++ [Mutants_complete]))
     = Resolved [].
Proof.
  split; [reflexivity|].
  apply (no_mutants_resolves_empty [Subscribe_supply; Sandbox_next Sample.sandbox0]);
    [reflexivity|reflexivity|vm_compute; discriminate].
Defined.

(** X12: a sandbox that comes back is reused at once.  When a pairing
    delivers its verdict while mutants wait, [tap(recycle)] pairs the
    returning sandbox with the oldest waiting mutant, and starts that mutant
    where it has to run, before the verdict that freed the sandbox is
    reported. *)
Theorem recycled_sandbox_reused_at_once (evs : list Event) (i : nat)
    (runResult : option RunResult.t) (p : SandboxPromise)
    (a : TranspiledMutant.t) (waiting : list TranspiledMutant.t) :
  let st := runInsideSandboxes evs in
  let st' := step st (Promise_fulfil i runResult) in
  let used := fulfilment p runResult in
  settled st = Pending ->
  active st !! i = Some p ->
  mutantBuffer st = a :: waiting ->
  calls st'
  = ((calls st ++ [Call_recycle used]) ++ pair_calls a (Used.sandbox used))
    ++ [Call_onMutantTested (Used.result used)]
  /\ mutantBuffer st' = waiting
  /\ sandboxBuffer st' = []
  /\ active st' = delete i (active st) ++ [paired a (Used.sandbox used)].
Proof.
  cbv zeta. pose proof (Inv_run evs) as HI.
  generalize dependent (runInsideSandboxes evs). intros st HI Hpend Hi Hmb.
  destruct HI as [_ _ _ _ _ Hz Ho He _].
  unfold step. rewrite Hpend.
  destruct (recycleObserver st) eqn:Hobs.
  2:{ destruct (Ho eq_refl) as [_ Hac]. rewrite Hac in Hi. discriminate. }
  rewrite Hmb, bool_decide_eq_false_2, andb_false_r in Hz by discriminate.
  destruct st as [ro ms ss mb sb zc ac co se ca]; simpl in *. subst.
  rewrite (promise_fulfil_mk i runResult p) by assumption. simpl.
  repeat split; reflexivity.
Qed.

Lemma recycled_sandbox_reused_at_once_witness :
  settled (runInsideSandboxes Sample.five_on_two) = Pending
  /\ mutantBuffer (step (runInsideSandboxes Sample.five_on_two)
                     (Promise_fulfil 0 (Some Sample.passing)))
     = [Sample.named "m4"; Sample.named "m5"].
Proof.
  split; [reflexivity|].
  apply (recycled_sandbox_reused_at_once Sample.five_on_two 0 (Some Sample.passing)
           (paired (Sample.named "m1") Sample.sandbox0) (Sample.named "m3"));
    reflexivity.
Defined.

(** ** Where promises, verdicts and sandboxes come from *)

Lemma observerCompletes_app cs more :
  observerCompletes (cs ++ more) = observerCompletes cs + observerCompletes more.
Proof. unfold observerCompletes. rewrite omap_app, length_app. reflexivity. Qed.

Lemma observerCompletes_pair_calls a b : observerCompletes (pair_calls a b) = 0.
Proof. unfold pair_calls. destruct (needsRun _); reflexivity. Qed.

Lemma observerCompletes_closing observer rs :
  observerCompletes (closing_calls observer rs) = if observer then 1 else 0.
Proof. destruct observer; reflexivity. Qed.

Lemma from_pairing_mono ps more p : from_pairing ps p -> from_pairing (ps ++ more) p.
Proof. intros (a & b & Hin & ->). exists a, b. split; [apply in_or_app; auto|reflexivity]. Qed.

Lemma delivered_by_mono ps more u : delivered_by ps u -> delivered_by (ps ++ more) u.
Proof.
  intros (a & b & rr & Hin & ->). exists a, b, rr.
  split; [apply in_or_app; auto|reflexivity].
Qed.

Lemma provenance_pair pool ac ca a b :
  provenance_of pool ac ca -> In b pool ->
  provenance_of pool (ac ++ [paired a b]) (ca ++ pair_calls a b).
Proof.
  intros (Hac & Hrec & Hsb) Hin. unfold provenance_of.
  rewrite pairings_pair_calls, recycles_pair_calls. repeat split.
  - apply Forall_app. split.
    + eapply Forall_impl; [exact Hac|]. intros p. apply from_pairing_mono.
    + repeat constructor. exists a, b. split; [apply in_or_app; simpl; auto|reflexivity].
  - eapply Forall_impl; [exact Hrec|]. intros u. apply delivered_by_mono.
  - apply Forall_app. split; [exact Hsb|]. repeat constructor. exact Hin.
Qed.

Lemma provenance_recycle pool ac ca p runResult :
  provenance_of pool ac ca -> from_pairing (pairings ca) p ->
  provenance_of pool ac (ca ++ [Call_recycle (fulfilment p runResult)]).
Proof.
  intros (Hac & Hrec & Hsb) (a & b & Hin & ->). unfold provenance_of.
  rewrite pairings_recycle, recycles_recycle. repeat split; try assumption.
  apply Forall_app. split; [exact Hrec|]. repeat constructor.
  exists a, b, runResult. split; [exact Hin|reflexivity].
Qed.

Lemma provenance_tested pool ac ca r :
  provenance_of pool ac ca -> provenance_of pool ac (ca ++ [Call_onMutantTested r]).
Proof. unfold provenance_of. rewrite pairings_tested, recycles_tested. auto. Qed.

Lemma provenance_closing pool ac ca observer rs :
  provenance_of pool ac ca -> provenance_of pool ac (ca ++ closing_calls observer rs).
Proof. unfold provenance_of. rewrite pairings_closing, recycles_closing. auto. Qed.

Lemma provenance_delete pool ac ca i :
  provenance_of pool ac ca -> provenance_of pool (delete i ac) ca.
Proof. intros (Hac & Hrec & Hsb). repeat split; try assumption. by apply Forall_delete. Qed.

Lemma provenance_pool pool more ac ca :
  provenance_of pool ac ca -> provenance_of (pool ++ more) ac ca.
Proof.
  intros (Hac & Hrec & Hsb). repeat split; try assumption.
  eapply Forall_impl; [exact Hsb|]. intros p Hin. apply in_or_app. auto.
Qed.

Lemma Provenance_intro evs st :
  provenance_of (poolOf evs) (active st) (calls st) ->
  (recycleObserver st = false -> pairings (calls st) = []) ->
  observerCompletes (calls st)
  = match settled st with
    | Resolved _ => if recycleObserver st then 1 else 0
    | _ => 0
    end ->
  Provenance evs st.
Proof. intros (Hac & Hrec & Hsb) Hsub Hobs. constructor; assumption. Qed.

Lemma Provenance_elim evs st :
  Provenance evs st -> provenance_of (poolOf evs) (active st) (calls st).
Proof. intros [Hac Hrec Hsb _ _]. repeat split; assumption. Qed.

Lemma held_in_pool evs st b :
  Link evs st -> In b (held st) -> In b (poolOf evs).
Proof.
  intros [_ _ Hh] Hin. apply list_elem_of_In. apply list_elem_of_In in Hin.
  eapply elem_of_submseteq; eassumption.
Qed.

Lemma Provenance_step evs ev st :
  Inv st -> Link evs st -> Provenance evs st -> Provenance (evs ++ [ev]) (step st ev).
Proof.
  intros HI HL HP. pose proof HI as [Hwf _ _ _ _ _ Ho He Hs].
  pose proof (Provenance_elim _ _ HP) as Hprov.
  apply (provenance_pool _ (match ev with Sandbox_next b => [b] | _ => [] end)) in Hprov.
  rewrite <- poolOf_snoc in Hprov.
  pose proof (prov_observer _ _ HP) as Hobs.
  pose proof (prov_subscribed _ _ HP) as Hsub.
  assert (Hheld : forall b, In b (held st) -> In b (poolOf (evs ++ [ev]))).
  { intros b Hin. rewrite poolOf_snoc. apply in_or_app. left.
    eapply held_in_pool; eassumption. }
  unfold step. destruct (settled st) eqn:Hpend.
  2,3: apply Provenance_intro; [exact Hprov|exact Hsub|rewrite Hpend; exact Hobs].
  clear HP HL. unfold held in Hheld.
  destruct st as [ro ms ss mb sb zc ac co se ca]; simpl in *. subst se.
  assert (Hsub' : forall observer rs,
            ro = false -> pairings (ca ++ closing_calls observer rs) = []).
  { intros observer rs Hro. rewrite pairings_closing. auto. }
  destruct ev.
  - apply Provenance_intro; simpl; try assumption. discriminate.
  - rewrite mutant_next_mk by assumption.
    destruct ms; [|destruct sb as [|b sb']]; apply Provenance_intro;
      cbn [calls active settled recycleObserver];
      rewrite ?observerCompletes_app, ?observerCompletes_pair_calls;
      try assumption; try lia.
    + apply provenance_pair; [assumption|]. apply Hheld, in_or_app. right. left. reflexivity.
    + intros Hro. destruct (Ho Hro). discriminate.
  - rewrite mutants_complete_mk.
    destruct ms; [|destruct mb, ac]; apply Provenance_intro;
      cbn [calls active settled recycleObserver];
      rewrite ?observerCompletes_app, ?observerCompletes_closing;
      try assumption; try lia; auto.
    by apply provenance_closing.
  - unfold mutants_error. simpl. destruct ms; apply Provenance_intro; simpl; assumption.
  - unfold sandbox_next. simpl. destruct ro; simpl.
    2:{ apply Provenance_intro; simpl; assumption. }
    destruct ss; simpl.
    { apply Provenance_intro; simpl; try assumption. }
    rewrite merged_next_mk by assumption.
    destruct zc; [|destruct mb as [|a mb']]; apply Provenance_intro;
      cbn [calls active settled recycleObserver];
      rewrite ?observerCompletes_app, ?observerCompletes_pair_calls;
      try assumption; try lia; try discriminate.
    apply provenance_pair; [assumption|]. rewrite poolOf_snoc. apply in_or_app.
    right. left. reflexivity.
  - unfold sandboxes_complete. simpl. destruct ro; apply Provenance_intro; simpl; assumption.
  - unfold sandboxes_error. simpl. destruct (ro && negb ss && negb zc);
      apply Provenance_intro; simpl; assumption.
  - destruct (ac !! i) as [p|] eqn:Hi.
    2:{ unfold promise_fulfil. simpl. rewrite Hi. apply Provenance_intro; simpl; assumption. }
    destruct ro.
    2:{ destruct (Ho eq_refl) as [_ Hac]. rewrite Hac in Hi. discriminate. }
    assert (Hp : from_pairing (pairings ca) p).
    { destruct Hprov as (Hac & _). eapply Forall_forall in Hac; [exact Hac|].
      eapply list_elem_of_lookup_2. exact Hi. }
    assert (Hwfp : promise_wf p).
    { eapply Forall_forall in Hwf; [exact Hwf|]. eapply list_elem_of_lookup_2. exact Hi. }
    assert (Hin : In (Used.sandbox (fulfilment p runResult))
                    (poolOf (evs ++ [Promise_fulfil i runResult]))).
    { apply Hheld, in_or_app. left.
      pose proof (fulfilment_key p runResult Hwfp) as Hkey.
      replace (Used.sandbox (fulfilment p runResult)) with (promise_sandbox p)
        by (unfold promise_sandbox; rewrite <- Hkey; reflexivity).
      apply in_map. apply list_elem_of_In. eapply list_elem_of_lookup_2. exact Hi. }
    pose proof (provenance_recycle _ _ _ p runResult Hprov Hp) as Hprov1.
    rewrite (promise_fulfil_mk i runResult p) by assumption. cbv zeta.
    destruct zc; [destruct (delete i ac) as [|q ac'] eqn:Hdel|destruct mb as [|a mb']];
      apply Provenance_intro; cbn [calls active settled recycleObserver];
      rewrite ?observerCompletes_app, ?observerCompletes_pair_calls,
        ?observerCompletes_closing; try (rewrite Hobs; reflexivity); try discriminate.
    all: try apply provenance_closing; apply provenance_tested; rewrite <- ?Hdel.
    1-3: by apply provenance_delete.
    rewrite <- delete_snoc by (eapply lookup_lt_Some; exact Hi).
    apply provenance_delete. by apply provenance_pair.
  - unfold promise_reject. simpl.
    destruct (ac !! i) as [[]|]; apply Provenance_intro; simpl; assumption.
Qed.

Lemma Provenance_run evs : Provenance evs (runInsideSandboxes evs).
Proof.
  induction evs as [|ev evs IH] using rev_ind.
  - constructor; simpl; try constructor; reflexivity.
  - unfold runInsideSandboxes. rewrite foldl_snoc.
    apply Provenance_step; [apply Inv_run|apply Link_run|exact IH].
Qed.

Lemma paired_early a b :
  needsRun (a, b) = false ->
  exists r, (earlyResult (a, b)).2 = Some r /\ paired a b = Promise_resolve (Used.mk b r).
Proof.
  pose proof (earlyResult_fst a b) as Hfst.
  unfold needsRun, paired, createTuple, runInSandbox.
  destruct (earlyResult (a, b)) as [[a' b'] [r|]]; simpl in *; [|discriminate].
  injection Hfst as -> ->. intros _. exists r. split; reflexivity.
Qed.

(** X10: [recycle] always finds [recycleObserver] assigned.  As long as
    [zip] has not subscribed to the merged supply, which is what assigns it,
    no sandbox has been taken from the pool: none is buffered, no pairing has
    been made, no promise is pending and nothing has been recycled.  So
    whenever a promise delivers, [recycleObserver.next] has its receiver, and
    [recycle] hands the sandbox of the delivery to the merged supply. *)
Theorem recycle_finds_recycleObserver (evs : list Event) :
  let st := runInsideSandboxes evs in
  (recycleObserver st = false ->
   sandboxBuffer st = [] /\ pairings (calls st) = [] /\ active st = []
   /\ recycles (calls st) = [])
  /\ (forall i p runResult,
        active st !! i = Some p ->
        let used := fulfilment p runResult in
        recycleObserver st = true
        /\ recycle used st
           = Some (merged_next (promise_sandbox p) (log (Call_recycle used) st))).
Proof.
  cbv zeta. pose proof (Inv_run evs) as [Hwf _ _ Hp _ _ Ho _ _].
  pose proof (Provenance_run evs) as [_ _ _ Hsub _].
  generalize dependent (runInsideSandboxes evs). intros st Hwf Hp Ho Hsub.
  split.
  - intros Hobs. destruct (Ho Hobs) as [Hsb Hac]. specialize (Hsub Hobs).
    rewrite Hsub, Hac, app_nil_r in Hp. apply Permutation_nil_r in Hp.
    apply map_eq_nil in Hp. auto.
  - intros i p runResult Hi.
    assert (Hobs : recycleObserver st = true).
    { destruct (recycleObserver st); [reflexivity|].
      destruct (Ho eq_refl) as [_ Hac]. rewrite Hac in Hi. discriminate Hi. }
    split; [exact Hobs|]. unfold recycle. rewrite Hobs.
    assert (Hb : Used.sandbox (fulfilment p runResult) = promise_sandbox p).
    { unfold promise_sandbox. rewrite <- (fulfilment_key p runResult); [reflexivity|].
      eapply Forall_forall in Hwf; [exact Hwf|]. eapply list_elem_of_lookup_2. exact Hi. }
    rewrite Hb. reflexivity.
Qed.

Lemma recycle_finds_recycleObserver_witness :
  let st := runInsideSandboxes Sample.five_on_two in
  active st !! 1 = Some (paired (Sample.named "m2") Sample.sandbox1)
  /\ recycleObserver st = true
  /\ exists st',
       recycle (fulfilment (paired (Sample.named "m2") Sample.sandbox1)
                  (Some Sample.passing)) st
       = Some st'
       /\ pairings (calls st')
          = pairings (calls st) ++ [(Sample.named "m3", Sample.sandbox1)].
Proof.
  intros st. split; [reflexivity|].
  destruct (proj2 (recycle_finds_recycleObserver Sample.five_on_two)
              1 (paired (Sample.named "m2") Sample.sandbox1) (Some Sample.passing)
              eq_refl)
    as (Hobs & Hrec).
  split; [exact Hobs|]. eexists. split; [exact Hrec|]. reflexivity.
Defined.

(** An event only appends to the call log. *)
Lemma step_calls st ev : Inv st -> exists more, calls (step st ev) = calls st ++ more.
Proof.
  intros [_ _ _ _ _ _ Ho He _]. unfold step.
  assert (Hsame : exists more, calls st = calls st ++ more)
    by (exists []; symmetry; apply app_nil_r).
  destruct (settled st) eqn:Hpend; try exact Hsame.
  destruct st as [ro ms ss mb sb zc ac co se ca]; simpl in *. subst se.
  destruct ev.
  - exact Hsame.
  - rewrite mutant_next_mk by assumption.
    destruct ms; [|destruct sb]; simpl; eauto.
  - rewrite mutants_complete_mk. destruct ms; [|destruct mb, ac]; simpl; eauto.
  - unfold mutants_error. simpl. destruct ms; exact Hsame.
  - unfold sandbox_next. simpl. destruct (ro && negb ss); [|exact Hsame].
    rewrite merged_next_mk by assumption.
    destruct zc; [|destruct mb]; simpl; eauto.
  - unfold sandboxes_complete. simpl. destruct ro; exact Hsame.
  - unfold sandboxes_error. simpl. destruct (ro && negb ss && negb zc); exact Hsame.
  - destruct (ac !! i) as [p|] eqn:Hi.
    2:{ unfold promise_fulfil. simpl. rewrite Hi. exact Hsame. }
    destruct ro.
    2:{ destruct (Ho eq_refl) as [_ Hac]. rewrite Hac in Hi. discriminate. }
    rewrite (promise_fulfil_mk i runResult p) by assumption. cbv zeta.
    destruct zc; [destruct (delete i ac)|destruct mb]; simpl;
      rewrite <- ?app_assoc; eauto.
  - unfold promise_reject. simpl. destruct (ac !! i) as [[]|]; exact Hsame.
Qed.

(** The one call of [recycle] an event can bring is that of the promise it
    fulfils. *)
Lemma step_recycles st ev :
  Inv st ->
  recycles (calls (step st ev))
  = recycles (calls st)
    ++ match settled st, ev with
       | Pending, Promise_fulfil i runResult =>
           match active st !! i with
           | Some p => [fulfilment p runResult]
           | None => []
           end
       | _, _ => []
       end.
Proof.
  intros [_ _ _ _ _ _ Ho He _]. unfold step.
  destruct (settled st) eqn:Hpend; rewrite ?app_nil_r; try reflexivity.
  destruct st as [ro ms ss mb sb zc ac co se ca]; simpl in *. subst se.
  destruct ev; rewrite ?app_nil_r.
  - reflexivity.
  - rewrite mutant_next_mk by assumption.
    destruct ms; [|destruct sb]; simpl; autorewrite with calls; reflexivity.
  - rewrite mutants_complete_mk. destruct ms; [|destruct mb, ac]; simpl;
      rewrite ?recycles_closing; reflexivity.
  - unfold mutants_error. simpl. destruct ms; reflexivity.
  - unfold sandbox_next. simpl. destruct (ro && negb ss); [|reflexivity].
    rewrite merged_next_mk by assumption.
    destruct zc; [|destruct mb]; simpl; autorewrite with calls; reflexivity.
  - unfold sandboxes_complete. simpl. destruct ro; reflexivity.
  - unfold sandboxes_error. simpl. destruct (ro && negb ss && negb zc); reflexivity.
  - destruct (ac !! i) as [p|] eqn:Hi.
    2:{ unfold promise_fulfil. simpl. rewrite Hi, app_nil_r. reflexivity. }
    destruct ro.
    2:{ destruct (Ho eq_refl) as [_ Hac]. rewrite Hac in Hi. discriminate. }
    rewrite (promise_fulfil_mk i runResult p) by assumption. cbv zeta.
    destruct zc; [destruct (delete i ac)|destruct mb]; simpl;
      rewrite ?recycles_closing; autorewrite with calls; reflexivity.
  - unfold promise_reject. simpl. destruct (ac !! i) as [[]|]; reflexivity.
Qed.

Lemma delivered_in_snoc evs ev p runResult :
  delivered_in evs p runResult -> delivered_in (evs ++ [ev]) p runResult.
Proof.
  intros (evs1 & evs2 & i & -> & Hpend & Hi).
  exists evs1, (evs2 ++ [ev]), i. rewrite <- app_assoc. done.
Qed.

(** Every sandbox recycled was recycled by a delivery of the run. *)
Lemma recycles_delivered evs :
  Forall (fun u => exists p runResult,
            delivered_in evs p runResult /\ u = fulfilment p runResult)
    (recycles (calls (runInsideSandboxes evs))).
Proof.
  induction evs as [|ev evs IH] using rev_ind; [constructor|].
  unfold runInsideSandboxes. rewrite foldl_snoc. fold (runInsideSandboxes evs).
  rewrite (step_recycles _ ev (Inv_run evs)). apply Forall_app. split.
  - eapply Forall_impl; [exact IH|]. intros u (p & runResult & Hd & ->).
    exists p, runResult. split; [by apply delivered_in_snoc|reflexivity].
  - destruct (settled (runInsideSandboxes evs)) eqn:Hpend; try constructor.
    destruct ev; try constructor.
    destruct (active (runInsideSandboxes evs) !! i) as [p|] eqn:Hi; repeat constructor.
    exists p, runResult. split; [|reflexivity].
    exists evs, [], i. done.
Qed.

(** Later events only append to the call log. *)
Lemma calls_grow evs more :
  exists extra,
    calls (runInsideSandboxes (evs ++ more)) = calls (runInsideSandboxes evs) ++ extra.
Proof.
  induction more as [|ev more IH] using rev_ind.
  - exists []. rewrite !app_nil_r. reflexivity.
  - destruct IH as (extra & IH). rewrite app_assoc.
    unfold runInsideSandboxes at 1. rewrite foldl_snoc.
    fold (runInsideSandboxes (evs ++ more)).
    destruct (step_calls _ ev (Inv_run (evs ++ more))) as (extra' & ->).
    exists (extra ++ extra'). rewrite IH, app_assoc. reflexivity.
Qed.

(** X13: every verdict a run reports belongs to a pairing the run made.
    For each verdict collected there are a mutant and a sandbox that [zip]
    paired such that the verdict is the early result of that pair, or, when
    the pair had none, [collectMutantResult] of the answer with which the
    promise of that pair was fulfilled, at an event of the run at which it was
    pending; [sandbox.runMutant] was then really called for that pair.  So no
    mutant is scored by a run that did not take place. *)
Theorem verdicts_come_from_pairings (evs : list Event) (r : MutantResult.t) :
  let st := runInsideSandboxes evs in
  In r (collected st) ->
  exists a b,
    In (a, b) (pairings (calls st))
    /\ MutantResult.id r = mutantId a
    /\ (needsRun (a, b) = false -> (earlyResult (a, b)).2 = Some r)
    /\ (needsRun (a, b) = true ->
        In (a, b) (runMutants (calls st))
        /\ exists runResult,
             delivered_in evs (paired a b) runResult
             /\ r = collectMutantResult (TranspiledMutant.mutant a) runResult).
Proof.
  cbv zeta. pose proof (Inv_run evs) as [_ _ Hr _ Hrun _ _ _ _].
  intros Hin. rewrite <- Hr in Hin. apply in_map_iff in Hin as (u & <- & Hu).
  pose proof (recycles_delivered evs) as Hrec.
  eapply Forall_forall in Hrec; [|apply list_elem_of_In; exact Hu].
  destruct Hrec as (p & runResult & Hd & ->).
  pose proof Hd as (evs1 & evs2 & i & Hevs & Hpend & Hi).
  pose proof (Provenance_run evs1) as [Hac _ _ _ _].
  eapply Forall_forall in Hac; [|eapply list_elem_of_lookup_2; exact Hi].
  destruct Hac as (a & b & Hab & ->).
  assert (Hab' : In (a, b) (pairings (calls (runInsideSandboxes evs)))).
  { rewrite Hevs. destruct (calls_grow evs1 (Promise_fulfil i runResult :: evs2))
      as (extra & ->).
    unfold pairings. rewrite omap_app. apply in_or_app. left. exact Hab. }
  exists a, b. split; [exact Hab'|].
  pose proof (fulfilment_key (paired a b) runResult (paired_wf a b)) as Hkey.
  rewrite paired_key in Hkey. injection Hkey as Hid _.
  split; [exact Hid|]. split.
  - intros Hearly. destruct (paired_early a b Hearly) as (r & Hr' & ->). exact Hr'.
  - intros Hneeds. split.
    + rewrite Hrun. apply List.filter_In. split; assumption.
    + exists runResult. split; [exact Hd|].
      destruct (paired_needsRun a b Hneeds) as (k & -> & Hk).
      simpl. rewrite Hk. reflexivity.
Qed.

Lemma verdicts_come_from_pairings_witness :
  In (verdict Sample.runnable MutantStatus.Killed ["adds"%string])
    (collected (runInsideSandboxes Sample.out_of_order))
  /\ exists a b,
       In (a, b) (pairings (calls (runInsideSandboxes Sample.out_of_order)))
       /\ MutantResult.id (verdict Sample.runnable MutantStatus.Killed ["adds"%string])
          = mutantId a
       /\ (needsRun (a, b) = true ->
           exists runResult,
             delivered_in Sample.out_of_order (paired a b) runResult
             /\ verdict Sample.runnable MutantStatus.Killed ["adds"%string]
                = collectMutantResult (TranspiledMutant.mutant a) runResult).
Proof.
  assert (H : In (verdict Sample.runnable MutantStatus.Killed ["adds"%string])
                (collected (runInsideSandboxes Sample.out_of_order)))
    by (right; left; reflexivity).
  split; [exact H|].
  destruct (verdicts_come_from_pairings Sample.out_of_order _ H)
    as (a & b & Hab & Hid & _ & Hrun).
  exists a, b. split; [exact Hab|]. split; [exact Hid|].
  intros Hneeds. exact (proj2 (Hrun Hneeds)).
Defined.

(** X14: the pipeline never makes up a sandbox.  Every sandbox [zip] pairs
    with a mutant, every sandbox [runMutant] is called on and every sandbox
    [recycle] sends back was handed out by the pool. *)
Theorem sandboxes_come_from_the_pool (evs : list Event) :
  let st := runInsideSandboxes evs in
  (forall a b, In (a, b) (pairings (calls st)) -> In b (poolOf evs))
  /\ (forall a b, In (a, b) (runMutants (calls st)) -> In b (poolOf evs))
  /\ (forall u, In u (recycles (calls st)) -> In (Used.sandbox u) (poolOf evs)).
Proof.
  cbv zeta. pose proof (Inv_run evs) as [_ _ _ _ Hrun _ _ _ _].
  pose proof (Provenance_run evs) as [_ Hrec Hsb _ _].
  generalize dependent (runInsideSandboxes evs). intros st Hrun Hrec Hsb.
  assert (Hpairs : forall a b, In (a, b) (pairings (calls st)) -> In b (poolOf evs)).
  { intros a b Hin. eapply Forall_forall in Hsb; [|apply list_elem_of_In; exact Hin].
    exact Hsb. }
  repeat split.
  - exact Hpairs.
  - intros a b Hin. rewrite Hrun in Hin. apply List.filter_In in Hin as [Hin _].
    eapply Hpairs. exact Hin.
  - intros u Hin. eapply Forall_forall in Hrec; [|apply list_elem_of_In; exact Hin].
    destruct Hrec as (a & b & runResult & Hab & ->).
    pose proof (fulfilment_key (paired a b) runResult (paired_wf a b)) as Hkey.
    rewrite paired_key in Hkey. injection Hkey as _ Hsandbox.
    rewrite Hsandbox. eapply Hpairs. exact Hab.
Qed.

Lemma sandboxes_come_from_the_pool_witness :
  In (Sample.named "m1", Sample.sandbox0)
    (pairings (calls (runInsideSandboxes Sample.five_on_two)))
  /\ In Sample.sandbox0 (poolOf Sample.five_on_two).
Proof.
  assert (H : In (Sample.named "m1", Sample.sandbox0)
                (pairings (calls (runInsideSandboxes Sample.five_on_two))))
    by (left; reflexivity).
  split; [exact H|].
  apply (proj1 (sandboxes_come_from_the_pool Sample.five_on_two)
           (Sample.named "m1") Sample.sandbox0 H).
Defined.

(** X15: the guard of [completeRecycle].  [recycleObserver.complete()] is
    called exactly in the runs that resolve after [recycled] had been
    subscribed, then once, and never on an unassigned observer; a run that
    resolves with at least one verdict has always completed it. *)
Theorem recycleObserver_completed_when_assigned (evs : list Event) :
  let st := runInsideSandboxes evs in
  observerCompletes (calls st) <= closes (calls st)
  /\ (observerCompletes (calls st) = 1
      <-> (exists rs, settled st = Resolved rs) /\ recycleObserver st = true)
  /\ (forall rs, settled st = Resolved rs -> rs <> [] ->
      observerCompletes (calls st) = 1).
Proof.
  cbv zeta. pose proof (Inv_run evs) as [_ _ Hr Hp _ _ _ _ Hs].
  pose proof (Provenance_run evs) as [_ _ _ Hsub Hobs].
  generalize dependent (runInsideSandboxes evs). intros st Hr Hp Hs Hsub Hobs.
  destruct (settled st) as [|rs|] eqn:Hset.
  - destruct Hs as [[Hc _] _]. rewrite Hobs, Hc.
    split; [lia|]. split; [|discriminate].
    split; [discriminate|]. intros [[rs H] _]. discriminate H.
  - destruct Hs as (Hrs & _ & Hac & cs & Hcs & [Hc _]).
    assert (Hcl : closes (calls st) = 1) by (rewrite Hcs, closes_closing, Hc; reflexivity).
    rewrite Hobs, Hcl. split; [destruct (recycleObserver st); lia|]. split.
    + destruct (recycleObserver st); split; try discriminate; eauto.
      intros [_ H]. discriminate H.
    + intros rs' [= <-] Hne.
      destruct (recycleObserver st) eqn:Hro; [reflexivity|exfalso].
      rewrite (Hsub eq_refl), Hac, app_nil_r in Hp. simpl in Hp.
      apply Permutation_nil_r, map_eq_nil in Hp.
      rewrite Hp in Hr. simpl in Hr. congruence.
  - destruct Hs as [Hc _]. rewrite Hobs, Hc.
    split; [lia|]. split; [|discriminate].
    split; [discriminate|]. intros [[rs H] _]. discriminate H.
Qed.

Lemma recycleObserver_completed_when_assigned_witness :
  settled (runInsideSandboxes Sample.out_of_order)
  = Resolved [verdict Sample.runnable2 MutantStatus.Survived ["adds"%string];
              verdict Sample.runnable MutantStatus.Killed ["adds"%string]]
  /\ observerCompletes (calls (runInsideSandboxes Sample.out_of_order)) = 1.
Proof.
  split; [reflexivity|].
  apply (proj2 (proj2 (recycleObserver_completed_when_assigned Sample.out_of_order))
           [verdict Sample.runnable2 MutantStatus.Survived ["adds"%string];
            verdict Sample.runnable MutantStatus.Killed ["adds"%string]]);
    [reflexivity|discriminate].
Defined.

(** ** The history of a run *)

Lemma step_settled st ev : settled st <> Pending -> step st ev = st.
Proof. unfold step. destruct (settled st); congruence. Qed.

(** X16: what a run has done stays done.  The call log only grows: later
    events append to it and never change or withdraw a call; so the verdicts
    collected so far stay a prefix of those collected later.  And once the
    promise of the run has settled, no event changes anything any more. *)
Theorem history_only_grows (evs more : list Event) :
  calls (runInsideSandboxes evs) `prefix_of` calls (runInsideSandboxes (evs ++ more))
  /\ collected (runInsideSandboxes evs)
     `prefix_of` collected (runInsideSandboxes (evs ++ more))
  /\ (settled (runInsideSandboxes evs) <> Pending ->
      runInsideSandboxes (evs ++ more) = runInsideSandboxes evs).
Proof.
  assert (Hcalls : calls (runInsideSandboxes evs)
                   `prefix_of` calls (runInsideSandboxes (evs ++ more))).
  { induction more as [|ev more IH] using rev_ind.
    - rewrite app_nil_r. reflexivity.
    - rewrite app_assoc. unfold runInsideSandboxes at 2. rewrite foldl_snoc.
      fold (runInsideSandboxes (evs ++ more)).
      destruct (step_calls _ ev (Inv_run (evs ++ more))) as (extra & ->).
      etrans; [exact IH|]. apply prefix_app_r. reflexivity. }
  split; [exact Hcalls|]. split.
  - rewrite <- (inv_tested _ (Inv_run evs)), <- (inv_tested _ (Inv_run (evs ++ more))).
    destruct Hcalls as (extra & ->). unfold tested. rewrite omap_app.
    apply prefix_app_r. reflexivity.
  - intros Hset. unfold runInsideSandboxes at 1. rewrite foldl_app.
    fold (runInsideSandboxes evs). clear Hcalls.
    induction more as [|ev more IH]; simpl; [reflexivity|].
    rewrite step_settled by exact Hset. exact IH.
Qed.

Lemma history_only_grows_witness :
  settled (runInsideSandboxes Sample.out_of_order) <> Pending
  /\ runInsideSandboxes (Sample.out_of_order ++ [Mutant_next Sample.broken])
     = runInsideSandboxes Sample.out_of_order.
Proof.
  assert (H : settled (runInsideSandboxes Sample.out_of_order) <> Pending)
    by (vm_compute; discriminate).
  split; [exact H|].
  apply (proj2 (proj2 (history_only_grows Sample.out_of_order
                         [Mutant_next Sample.broken]))).
  exact H.
Defined.


(** * [run] *)

Lemma run_inv_step allMutants rst ev :
  run_inv allMutants rst -> run_inv allMutants (run_step allMutants rst ev).
Proof.
  unfold run_inv, run_step. destruct rst as [ph p rc]; simpl.
  destruct ph; simpl; intros Hinv.
  - destruct Hinv as [-> ->]. destruct ev; simpl; auto.
  - destruct Hinv as [-> Hpend]. destruct ev; simpl; auto.
    unfold after_runInsideSandboxes. simpl.
    destruct (settled (step p ev)) eqn:Hset; simpl; rewrite ?Hset; auto.
  - destruct Hinv as [-> Hres]. destruct ev; simpl; eauto.
  - destruct ev; simpl; exact Hinv.
  - destruct ev; simpl; exact Hinv.
Qed.

Lemma run_inv_run allMutants evs : run_inv allMutants (run allMutants evs).
Proof.
  unfold run. induction evs as [|ev evs IH] using rev_ind.
  - simpl. split; reflexivity.
  - rewrite foldl_snoc. apply run_inv_step. exact IH.
Qed.

Lemma run_thrown allMutants evs rst :
  phase rst = Thrown -> foldl (run_step allMutants) rst evs = rst.
Proof.
  intros Hth. induction evs as [|ev evs IH]; simpl; [reflexivity|].
  replace (run_step allMutants rst ev) with rst; [exact IH|].
  unfold run_step. rewrite Hth. destruct ev; reflexivity.
Qed.

Lemma run_step_post allMutants rst ev :
  phase rst <> Await_initialize ->
  phase rst = Await_runInsideSandboxes \/ settled (pipeline rst) <> Pending ->
  let rst' := run_step allMutants rst ev in
  phase rst' <> Await_initialize
  /\ (phase rst' = Await_runInsideSandboxes \/ settled (pipeline rst') <> Pending)
  /\ pipeline rst' = foldl step (pipeline rst) (forwarded [ev]).
Proof.
  destruct rst as [ph p rc]. unfold run_step. simpl. intros Hph Hp.
  destruct ph; try congruence.
  - destruct ev; simpl; try (repeat split; auto; discriminate).
    unfold after_runInsideSandboxes. simpl.
    destruct (settled (step p ev)) eqn:Hset; simpl;
      (split; [discriminate|]); (split; [|reflexivity]); auto;
      right; rewrite Hset; discriminate.
  - destruct Hp as [Hp|Hp]; [discriminate|].
    destruct ev; simpl; rewrite ?(step_settled p) by exact Hp;
      repeat split; auto; discriminate.
  - destruct Hp as [Hp|Hp]; [discriminate|].
    destruct ev; simpl; rewrite ?(step_settled p) by exact Hp;
      repeat split; auto; discriminate.
  - destruct Hp as [Hp|Hp]; [discriminate|].
    destruct ev; simpl; rewrite ?(step_settled p) by exact Hp;
      repeat split; auto; discriminate.
Qed.

Lemma forwarded_cons ev evs : forwarded (ev :: evs) = forwarded [ev] ++ forwarded evs.
Proof. destruct ev; reflexivity. Qed.

Lemma run_post allMutants evs : forall rst,
  phase rst <> Await_initialize ->
  phase rst = Await_runInsideSandboxes \/ settled (pipeline rst) <> Pending ->
  pipeline (foldl (run_step allMutants) rst evs)
  = foldl step (pipeline rst) (forwarded evs).
Proof.
  induction evs as [|ev evs IH]; intros rst Hph Hp; [reflexivity|].
  destruct (run_step_post allMutants rst ev Hph Hp) as (Hph' & Hp' & Heq).
  rewrite forwarded_cons, foldl_app, <- Heq.
  change (foldl (run_step allMutants) rst (ev :: evs))
    with (foldl (run_step allMutants) (run_step allMutants rst ev) evs).
  apply IH; assumption.
Qed.

Lemma run_pre allMutants evs : forall rst,
  phase rst = Await_initialize -> pipeline rst = init ->
  pipeline (foldl (run_step allMutants) rst evs)
  = runInsideSandboxes (pipelineEvents evs).
Proof.
  induction evs as [|ev evs IH]; intros rst Hph Hp; simpl; [exact Hp|].
  destruct rst as [ph p rc]; simpl in *. subst ph p.
  destruct ev; simpl; try (apply (IH (mkRun _ _ _)); reflexivity).
  - rewrite run_post; simpl; [reflexivity|discriminate|auto].
  - rewrite run_thrown by reflexivity. reflexivity.
Qed.

Lemma run_pipeline allMutants evs :
  pipeline (run allMutants evs) = runInsideSandboxes (pipelineEvents evs).
Proof. apply run_pre; reflexivity. Qed.

Lemma resolved_pipeline_last st rs :
  Inv st -> settled st = Resolved rs ->
  active st = [] /\ last (calls st) = Some (Call_onAllMutantsTested rs)
  /\ allTested (calls st) = [rs].
Proof.
  intros [_ _ _ _ _ _ _ _ Hs] Hres. rewrite Hres in Hs.
  destruct Hs as (_ & _ & Hac & cs & -> & [_ Hq]).
  rewrite last_closing, allTested_closing, Hq. auto.
Qed.

(** X17: what [run] returns.  When [run] returns an array, it is the array
    the pipeline resolved with and reported last to [onAllMutantsTested];
    [run] has then called, in this order and once each, the transpiler's
    constructor and [initialize], the pool's constructor, [streamSandboxes],
    [transpileMutants] with its argument, [disposeAll] and [dispose]; and if
    the transpiler emitted one item per mutant of the argument, the array
    holds the identities of those mutants, each as often as given. *)
Theorem run_returns_the_pipeline_result (allMutants : list TestableMutant.t)
    (evs : list RunEvent) (result : list MutantResult.t) :
  phase (run allMutants evs) = Returned result ->
  settled (runInsideSandboxes (pipelineEvents evs)) = Resolved result
  /\ last (calls (runInsideSandboxes (pipelineEvents evs)))
     = Some (Call_onAllMutantsTested result)
  /\ runCalls (run allMutants evs)
     = [Run_newMutantTranspiler; Run_initialize; Run_newSandboxPool;
        Run_streamSandboxes; Run_transpileMutants allMutants;
        Run_disposeAll; Run_dispose]
  /\ (map TranspiledMutant.mutant (mutantsOf (pipelineEvents evs)) = allMutants ->
      map MutantResult.id result ≡ₚ map TestableMutant.id allMutants).
Proof.
  intros Hret. pose proof (run_inv_run allMutants evs) as Hinv.
  unfold run_inv in Hinv. rewrite Hret in Hinv. destruct Hinv as [Hcalls Hres].
  rewrite run_pipeline in Hres.
  destruct (resolved_pipeline_last _ _ (Inv_run _) Hres) as (_ & Hlast & _).
  split; [exact Hres|]. split; [exact Hlast|]. split; [exact Hcalls|].
  intros Hall.
  destruct (resolved_run _ _ Hres) as (_ & _ & _ & _ & Hseen & Hrs & Hperm).
  apply (Permutation_map fst) in Hperm.
  rewrite <- Hall, <- Hseen, <- Hrs, !map_map. rewrite !map_map in Hperm. exact Hperm.
Qed.

Lemma run_returns_the_pipeline_result_witness :
  phase (run [TranspiledMutant.mutant Sample.runnable]
           ([Initialize_fulfil]
            ++ map In_pipeline
                 (Sample.one_running ++ [Promise_fulfil 0 (Some Sample.killing)])
            ++ [DisposeAll_fulfil]))
  = Returned [verdict Sample.runnable MutantStatus.Killed ["adds"%string]]
  /\ settled (runInsideSandboxes
                (pipelineEvents
                   ([Initialize_fulfil]
                    ++ map In_pipeline
                         (Sample.one_running ++ [Promise_fulfil 0 (Some Sample.killing)])
                    ++ [DisposeAll_fulfil])))
     = Resolved [verdict Sample.runnable MutantStatus.Killed ["adds"%string]].
Proof.
  split; [reflexivity|].
  apply (run_returns_the_pipeline_result [TranspiledMutant.mutant Sample.runnable]).
  reflexivity.
Defined.

(** X18: [run] disposes of the sandboxes only when they are idle.  In every
    state of [run] the calls made so far are an initial part of the one fixed
    sequence; [disposeAll] has been called only after the pipeline resolved,
    with no pairing in flight and the results reported in full; and
    [dispose] only after [disposeAll] fulfilled, when [run] returns. *)
Theorem sandboxes_disposed_after_the_pipeline (allMutants : list TestableMutant.t)
    (evs : list RunEvent) :
  let rst := run allMutants evs in
  runCalls rst
  `prefix_of` [Run_newMutantTranspiler; Run_initialize; Run_newSandboxPool;
               Run_streamSandboxes; Run_transpileMutants allMutants;
               Run_disposeAll; Run_dispose]
  /\ (In Run_disposeAll (runCalls rst) ->
      exists result,
        settled (pipeline rst) = Resolved result
        /\ active (pipeline rst) = []
        /\ last (calls (pipeline rst)) = Some (Call_onAllMutantsTested result))
  /\ (In Run_dispose (runCalls rst) -> exists result, phase rst = Returned result).
Proof.
  cbv zeta. pose proof (run_inv_run allMutants evs) as Hinv.
  pose proof (run_pipeline allMutants evs) as Hpipe.
  assert (HI : Inv (pipeline (run allMutants evs))) by (rewrite Hpipe; apply Inv_run).
  generalize dependent (run allMutants evs). intros rst Hinv _ HI.
  assert (Hidle : forall result,
            settled (pipeline rst) = Resolved result ->
            exists result,
              settled (pipeline rst) = Resolved result
              /\ active (pipeline rst) = []
              /\ last (calls (pipeline rst)) = Some (Call_onAllMutantsTested result)).
  { intros result Hres.
    destruct (resolved_pipeline_last _ _ HI Hres) as (Hac & Hlast & _). eauto. }
  unfold run_inv in Hinv.
  destruct (phase rst) as [| |result|result|] eqn:Hph.
  - destruct Hinv as [-> _]. split; [eexists; reflexivity|].
    split; simpl; intros H; repeat destruct H as [H|H]; discriminate H || destruct H.
  - destruct Hinv as [-> _]. split; [eexists; reflexivity|].
    split; simpl; intros H; repeat destruct H as [H|H]; discriminate H || destruct H.
  - destruct Hinv as [-> Hres]. split; [eexists; reflexivity|].
    split; [intros _; eauto|].
    simpl; intros H; repeat destruct H as [H|H]; discriminate H || destruct H.
  - destruct Hinv as [-> Hres]. split; [exists []; reflexivity|].
    split; intros _; eauto.
  - destruct Hinv as [[-> _]|[[-> Hrej]|[-> [result Hres]]]].
    + split; [eexists; reflexivity|].
      split; simpl; intros H; repeat destruct H as [H|H]; discriminate H || destruct H.
    + split; [eexists; reflexivity|].
      split; simpl; intros H; repeat destruct H as [H|H]; discriminate H || destruct H.
    + split; [eexists; reflexivity|]. split; [intros _; eauto|].
      simpl; intros H; repeat destruct H as [H|H]; discriminate H || destruct H.
Qed.

Lemma sandboxes_disposed_after_the_pipeline_witness :
  In Run_disposeAll
    (runCalls
       (run [TranspiledMutant.mutant Sample.runnable]
          ([Initialize_fulfil]
           ++ map In_pipeline
                (Sample.one_running ++ [Promise_fulfil 0 (Some Sample.killing)]))))
  /\ exists result,
       settled
         (pipeline
            (run [TranspiledMutant.mutant Sample.runnable]
               ([Initialize_fulfil]
                ++ map In_pipeline
                     (Sample.one_running ++ [Promise_fulfil 0 (Some Sample.killing)]))))
       = Resolved result.
Proof.
  assert (H : In Run_disposeAll
                (runCalls
                   (run [TranspiledMutant.mutant Sample.runnable]
                      ([Initialize_fulfil]
                       ++ map In_pipeline
                            (Sample.one_running
                             ++ [Promise_fulfil 0 (Some Sample.killing)])))))
    by (vm_compute; tauto).
  split; [exact H|].
  destruct (proj1 (proj2 (sandboxes_disposed_after_the_pipeline
                            [TranspiledMutant.mutant Sample.runnable] _)) H)
    as (result & Hres & _).
  exists result. exact Hres.
Defined.

(** X19: a failure leaves what follows undone.  When the pipeline rejects,
    [run] throws after the calls up to [transpileMutants] and makes no other:
    neither [disposeAll] nor [dispose] is called, then or later, so the
    sandboxes are left as they are.  When it is [disposeAll] that rejects,
    [run] throws without calling [dispose].  And when [initialize] rejects,
    no pool is created and nothing reaches the pipeline. *)
Theorem run_throws_without_disposing (allMutants : list TestableMutant.t)
    (evs : list RunEvent) :
  let rst := run allMutants evs in
  (settled (pipeline rst) = Rejected ->
   phase rst = Thrown
   /\ runCalls rst = calls_running allMutants
   /\ ~ In Run_disposeAll (runCalls rst)
   /\ ~ In Run_dispose (runCalls rst)
   /\ forall more, run allMutants (evs ++ more) = rst)
  /\ (forall result more,
        phase rst = Await_disposeAll result ->
        let rst' := run allMutants (evs ++ DisposeAll_reject :: more) in
        phase rst' = Thrown
        /\ runCalls rst' = calls_disposing allMutants
        /\ ~ In Run_dispose (runCalls rst'))
  /\ (forall more,
        phase rst = Await_initialize ->
        let rst' := run allMutants (evs ++ Initialize_reject :: more) in
        phase rst' = Thrown
        /\ runCalls rst' = calls_started
        /\ pipeline rst' = init).
Proof.
  cbv zeta. pose proof (run_inv_run allMutants evs) as Hinv.
  assert (Hmore : forall more,
            run allMutants (evs ++ more)
            = foldl (run_step allMutants) (run allMutants evs) more).
  { intros more. unfold run. apply foldl_app. }
  assert (Hnot : forall (c : RunCall) (cs : list RunCall),
            forallb (fun c' => match c, c' with
                               | Run_dispose, Run_dispose
                               | Run_disposeAll, Run_disposeAll => false
                               | _, _ => true
                               end) cs = true ->
            match c with
            | Run_dispose | Run_disposeAll => True
            | _ => False
            end ->
            ~ In c cs).
  { intros c cs Hall Hc Hin. rewrite forallb_forall in Hall. specialize (Hall c Hin).
    destruct c; try destruct Hc; discriminate Hall. }
  generalize dependent (run allMutants evs). intros rst Hinv Hmore.
  unfold run_inv in Hinv. repeat apply conj.
  - intros Hrej. destruct (phase rst) eqn:Hph.
    + destruct Hinv as [_ Hinit]. rewrite Hinit in Hrej. discriminate Hrej.
    + destruct Hinv as [_ Hpend]. congruence.
    + destruct Hinv as [_ Hres]. congruence.
    + destruct Hinv as [_ Hres]. congruence.
    + destruct Hinv as [[_ Hinit]|[[Hcalls _]|[_ [result Hres]]]].
      * rewrite Hinit in Hrej. discriminate Hrej.
      * rewrite Hcalls. split; [reflexivity|]. split; [reflexivity|].
        split; [apply Hnot; [reflexivity|exact I]|].
        split; [apply Hnot; [reflexivity|exact I]|].
        intros more. rewrite Hmore. apply run_thrown. exact Hph.
      * congruence.
  - intros result more Hph. rewrite Hph in Hinv. destruct Hinv as [Hcalls _].
    rewrite Hmore. cbn [foldl].
    replace (run_step allMutants rst DisposeAll_reject)
      with (mkRun Thrown (pipeline rst) (runCalls rst))
      by (unfold run_step; rewrite Hph; reflexivity).
    rewrite run_thrown by reflexivity. cbn [phase runCalls]. rewrite Hcalls.
    split; [reflexivity|]. split; [reflexivity|].
    apply Hnot; [reflexivity|exact I].
  - intros more Hph. rewrite Hph in Hinv. destruct Hinv as [Hcalls Hinit].
    rewrite Hmore. cbn [foldl].
    replace (run_step allMutants rst Initialize_reject)
      with (mkRun Thrown (pipeline rst) (runCalls rst))
      by (unfold run_step; rewrite Hph; reflexivity).
    rewrite run_thrown by reflexivity. cbn [phase runCalls pipeline].
    split; [reflexivity|]. split; assumption.
Qed.

Lemma run_throws_without_disposing_witness :
  let rst :=
    run [TranspiledMutant.mutant Sample.runnable]
      ([Initialize_fulfil]
       ++ map In_pipeline (Sample.one_running ++ [Promise_reject 0])) in
  settled (pipeline rst) = Rejected
  /\ phase rst = Thrown
  /\ runCalls rst
     = [Run_newMutantTranspiler; Run_initialize; Run_newSandboxPool;
        Run_streamSandboxes;
        Run_transpileMutants [TranspiledMutant.mutant Sample.runnable]].
Proof.
  intros rst. split; [reflexivity|].
  destruct (proj1 (run_throws_without_disposing
                     [TranspiledMutant.mutant Sample.runnable]
                     ([Initialize_fulfil]
                      ++ map In_pipeline (Sample.one_running ++ [Promise_reject 0])))
              eq_refl)
    as (Hph & Hcalls & _).
  split; [exact Hph|exact Hcalls].
Defined.
